(** * syncserial: the edge-driven bit/word assembler of [syncserial/pd.py]

    A shallow embedding of [Decoder.decode] and of the helpers it relies on,
    followed by the properties of the decoder that the specification states.

    Python integers are unbounded, so every counter and sample number is a
    [Z].  The host runtime ([sigrokdecode]) is modelled by what the decoder
    sees of it: [self.wait] either returns the pins of the next clock edge
    (after setting [self.samplenum]) or raises, and [self.put] appends one
    record to the list of emitted output. *)

From Stdlib Require Import ZArith String Ascii List Bool Lia.
Import ListNotations.
Local Open Scope Z_scope.

(** ** Text of an annotation *)

Module Text.

Definition digit_char (d : Z) : ascii :=
  match d with
  | 0 => "0" | 1 => "1" | 2 => "2" | 3 => "3" | 4 => "4"
  | 5 => "5" | 6 => "6" | 7 => "7" | 8 => "8" | 9 => "9"
  | 10 => "A" | 11 => "B" | 12 => "C" | 13 => "D" | 14 => "E"
  | _ => "F"
  end%char.

(** Digits of a non-negative [n], most significant first, pushed in front
    of [acc]; a number has at most [log2 n + 1] digits in any base >= 2. *)
Fixpoint digits_aux (base : Z) (fuel : nat) (n : Z) (acc : string) : string :=
  match fuel with
  | O => acc
  | S fuel' =>
      let acc' := String (digit_char (n mod base)) acc in
      if n / base =? 0 then acc' else digits_aux base fuel' (n / base) acc'
  end.

Definition digits (base n : Z) : string :=
  digits_aux base (S (Z.to_nat (Z.log2 n))) n EmptyString.

Definition render (base n : Z) : string :=
  if n <? 0 then String "-"%char (digits base (- n)) else digits base n.

(** [str(n)] for an [int]. *)
Definition str (n : Z) : string := render 10 n.

(** ["%0.1X" % n]: upper-case hexadecimal, at least one digit. *)
Definition fmt_X (n : Z) : string := render 16 n.

End Text.

(** ** Options, output records and decoder state *)

Inductive edge_option := rising | falling.
Inductive bitorder_option := lsb_first | msb_first.

(** [self.options]: ['clock_edge'], ['bits'] and ['bitorder']. *)
Record Options := {
  clock_edge : edge_option;
  bits : Z;
  bitorder : bitorder_option
}.

Definition default_options : Options :=
  {| clock_edge := rising; bits := 8; bitorder := msb_first |}.

(** The four outputs registered by [start]. *)
Inductive output := OUTPUT_PYTHON | OUTPUT_ANN | OUTPUT_BINARY | OUTPUT_META.

Definition out_python := OUTPUT_PYTHON.
Definition out_ann := OUTPUT_ANN.
Definition out_binary := OUTPUT_BINARY.
Definition out_bitrate := OUTPUT_META.

(** One call [self.put(ss, es, output_id, [cls, [text]])]. *)
Record put_call := {
  ss : Z;
  es : Z;
  output_id : output;
  data : Z * string
}.

Definition is_bit_ann (p : put_call) : bool := fst (data p) =? 0.
Definition is_word_ann (p : put_call) : bool := fst (data p) =? 1.

(** The fields of [self] that [decode] reads or writes ([reset] also clears
    [samplerate], [pdu_start], [pdu_bits], [data_bits], [bitwidth] and
    [mindelta], which [decode] never touches).  [samplenum] is the attribute
    the host sets before [wait] returns or raises. *)
Record Decoder := {
  samplenum : Z;
  lastsamplenum : Z;
  bitstartsample : Z;
  lastbit : Z;
  bitlencount : Z;
  bitlensum : Z;
  nibblecount : Z;
  nibble : Z;
  nibblestartsample : Z
}.

Definition reset : Decoder :=
  {| samplenum := 0; lastsamplenum := 0; bitstartsample := 0; lastbit := 0;
     bitlencount := 0; bitlensum := 0; nibblecount := 0; nibble := 0;
     nibblestartsample := 0 |}.

(** A run of [decode]: the object, the locals [(clk, sda)] ([None] while they
    are unbound) and everything [put] so far, oldest first. *)
Record Run := {
  dec : Decoder;
  pins : option (Z * Z);
  emitted : list put_call
}.

Definition start : Run := {| dec := reset; pins := None; emitted := [] |}.

Inductive exn := EOFError | UnboundLocalError | ValueError.

(** What one pass through the body of [while True] does: fall through to the
    next pass, or leave [decode] with an exception. *)
Inductive outcome :=
| Continue (r : Run)
| Raise (e : exn) (r : Run).

Definition run_of (o : outcome) : Run :=
  match o with Continue r | Raise _ r => r end.

(** ** The sample source *)

Record edge := { at_sample : Z; clk_pin : Z; sda_pin : Z }.

Inductive wait_result :=
| Matched (s clk sda : Z)
| Exhausted (s : Z).

(** [self.wait([{0: 'r'}, {0: 'f'}])] on a capture holding the clock edges
    [src]; once they are used up every call raises, with [self.samplenum]
    left at [eof]. *)
Definition wait (src : list edge) (eof : Z) : wait_result :=
  match src with
  | e :: _ => Matched (at_sample e) (clk_pin e) (sda_pin e)
  | [] => Exhausted eof
  end.

(** ** The body of [decode] *)

Definition set_samplenum (s : Z) (d : Decoder) : Decoder :=
  {| samplenum := s; lastsamplenum := lastsamplenum d;
     bitstartsample := bitstartsample d; lastbit := lastbit d;
     bitlencount := bitlencount d; bitlensum := bitlensum d;
     nibblecount := nibblecount d; nibble := nibble d;
     nibblestartsample := nibblestartsample d |}.

Definition set_nibble (v : Z) (d : Decoder) : Decoder :=
  {| samplenum := samplenum d; lastsamplenum := lastsamplenum d;
     bitstartsample := bitstartsample d; lastbit := lastbit d;
     bitlencount := bitlencount d; bitlensum := bitlensum d;
     nibblecount := nibblecount d; nibble := v;
     nibblestartsample := nibblestartsample d |}.

(** [ceil(a / b)], as the exact ceiling of the quotient.  The source rounds
    the quotient to a double before taking [ceil]: the two agree for
    [0 <= a < 2^53] and [0 < b < 2^1022] ([ceil_true_divide_exact] below, on
    the model [Double] of that quotient) and can differ beyond, so the
    statement that gives the ends of the final annotations carries the bound
    on [bitlensum]. *)
Definition ceil_div (a b : Z) : Z := - ((- a) / b).

(** [average = 0 if self.bitlencount == 0 else ceil(self.bitlensum / self.bitlencount)] *)
Definition average (d : Decoder) : Z :=
  if bitlencount d =? 0 then 0 else ceil_div (bitlensum d) (bitlencount d).

(** Lines 150-159: the proposed annotation end, the bit length that will be
    accumulated, and whether the bit was truncated. *)
Definition measure_bit (d : Decoder) : Z * Z * bool :=
  let bitlen := samplenum d - bitstartsample d in
  let es := samplenum d in
  let average := average d in
  if (bitlencount d >? 3) && (bitlen >? average * 4)
  then (bitstartsample d + average * 4, average * 4, true)
  else (es, bitlen, false).

(** The two ways of collecting [lastbit] into [nibble]; a negative shift
    count is a [ValueError] in Python ([None] here). *)
Definition fold_bit (lsbfirst : bool) (nibble lastbit nibblecount : Z) : option Z :=
  if lsbfirst then Some (Z.lor (Z.shiftl nibble 1) lastbit)
  else if nibblecount <? 0 then None
  else Some (Z.lor nibble (Z.shiftl lastbit nibblecount)).

Definition put (ss es : Z) (o : output) (data : Z * string) (out : list put_call)
  : list put_call :=
  out ++ [ {| ss := ss; es := es; output_id := o; data := data |} ].

Definition putg (ss es cls : Z) (text : string) := put ss es out_ann (cls, text).
Definition putp (ss es : Z) (data : Z * string) := put ss es out_python data.
Definition putb (ss es : Z) (data : Z * string) := put ss es out_binary data.

(** The [except] block: samples exhausted. *)
Definition on_exhausted (lsbfirst : bool) (r : Run) : outcome :=
  let d := dec r in
  if nibblecount d >? 0 then
    match fold_bit lsbfirst (nibble d) (lastbit d) (nibblecount d) with
    | None => Raise ValueError r
    | Some nib =>
        let average := average d in
        let out := put (bitstartsample d) (bitstartsample d + average) out_ann
                       (0, Text.str (lastbit d)) (emitted r) in
        let out := put (nibblestartsample d) (bitstartsample d + average) out_ann
                       (1, Text.fmt_X nib) out in
        Raise EOFError {| dec := set_nibble nib d; pins := pins r; emitted := out |}
    end
  else Continue r.

Definition is_active (e : edge_option) (clk : Z) : bool :=
  match e with
  | rising => clk =? 1
  | falling => clk =? 0
  end.

(** The active-edge branch (lines 148-189). *)
Definition active_edge (wordlen : Z) (lsbfirst : bool) (sda : Z) (r : Run) : outcome :=
  let d := dec r in
  if bitlencount d >? 0 then
    let '(es, bitlen, truncate) := measure_bit d in
    let out := put (bitstartsample d) es out_ann (0, Text.str (lastbit d)) (emitted r) in
    match fold_bit lsbfirst (nibble d) (lastbit d) (nibblecount d) with
    | None => Raise ValueError {| dec := d; pins := pins r; emitted := out |}
    | Some nib =>
        let cnt := nibblecount d + 1 in
        let nss := if nibblestartsample d =? 0 then bitstartsample d
                   else nibblestartsample d in
        let flush := (cnt >=? wordlen) || truncate in
        let out := if flush then put nss es out_ann (1, Text.fmt_X nib) out else out in
        let updated := negb (bitstartsample d =? 0) in
        Continue
          {| dec :=
               {| samplenum := samplenum d;
                  lastsamplenum := samplenum d;
                  bitstartsample := samplenum d;
                  lastbit := sda;
                  bitlencount :=
                    (if updated then bitlencount d + 1 else bitlencount d) + 1;
                  bitlensum :=
                    if updated then bitlensum d + bitlen else bitlensum d;
                  nibblecount := if flush then 0 else cnt;
                  nibble := if flush then 0 else nib;
                  nibblestartsample := if flush then 0 else nss |};
             pins := pins r;
             emitted := out |}
    end
  else
    Continue
      {| dec :=
           {| samplenum := samplenum d;
              lastsamplenum := samplenum d;
              bitstartsample := samplenum d;
              lastbit := sda;
              bitlencount := bitlencount d + 1;
              bitlensum := bitlensum d;
              nibblecount := nibblecount d;
              nibble := nibble d;
              nibblestartsample := nibblestartsample d |};
         pins := pins r;
         emitted := emitted r |}.

(** The [elif self.lastsamplenum == 0] branch. *)
Definition inactive_edge (r : Run) : Run :=
  let d := dec r in
  if lastsamplenum d =? 0 then
    {| dec :=
         {| samplenum := samplenum d;
            lastsamplenum := lastsamplenum d;
            bitstartsample := samplenum d;
            lastbit := lastbit d;
            bitlencount := bitlencount d;
            bitlensum := bitlensum d;
            nibblecount := nibblecount d;
            nibble := nibble d;
            nibblestartsample := samplenum d |};
       pins := pins r;
       emitted := emitted r |}
  else r.

(** [lsbfirst = self.options['bitorder'] == 'lsb first'] *)
Definition lsbfirst (o : Options) : bool :=
  match bitorder o with lsb_first => true | msb_first => false end.

(** Everything after the [try] statement, reading the locals [clk] and [sda]
    as they stand. *)
Definition on_edge (o : Options) (r : Run) : outcome :=
  match pins r with
  | None => Raise UnboundLocalError r
  | Some (clk, sda) =>
      if is_active (clock_edge o) clk
      then active_edge (bits o) (lsbfirst o) sda r
      else Continue (inactive_edge r)
  end.

(** One pass through the body of [while True], given what [wait] did. *)
Definition loop_body (o : Options) (w : wait_result) (r : Run) : outcome :=
  match w with
  | Matched s clk sda =>
      on_edge o {| dec := set_samplenum s (dec r);
                   pins := Some (clk, sda);
                   emitted := emitted r |}
  | Exhausted s =>
      match on_exhausted (lsbfirst o)
              {| dec := set_samplenum s (dec r);
                 pins := pins r;
                 emitted := emitted r |} with
      | Continue r' => on_edge o r'
      | stop => stop
      end
  end.

(** [decode], cut after [fuel] passes: [Continue r] says the loop is still
    running after that many passes. *)
Fixpoint decode (fuel : nat) (o : Options) (src : list edge) (eof : Z) (r : Run)
  : outcome :=
  match fuel with
  | O => Continue r
  | S fuel' =>
      match loop_body o (wait src eof) r with
      | Continue r' => decode fuel' o (tl src) eof r'
      | stop => stop
      end
  end.

Definition mk_edge (s clk sda : Z) : edge :=
  {| at_sample := s; clk_pin := clk; sda_pin := sda |}.

(** ** The passes of the loop in closed form

    The definitions of this section are not code of the decoder: they name
    the results of its branches so that statements can mention them, and each
    is proved equal to what the code computes before it is used. *)

(** The value [fold_bit] computes when the shift count is legal. *)
Definition folded (lsbfirst : bool) (nibble lastbit nibblecount : Z) : Z :=
  if lsbfirst then Z.lor (Z.shiftl nibble 1) lastbit
  else Z.lor nibble (Z.shiftl lastbit nibblecount).

(** The run as a pass finds it once [wait] has returned or raised. *)
Definition arrive (w : wait_result) (r : Run) : Run :=
  match w with
  | Matched s clk sda =>
      {| dec := set_samplenum s (dec r); pins := Some (clk, sda);
         emitted := emitted r |}
  | Exhausted s =>
      {| dec := set_samplenum s (dec r); pins := pins r; emitted := emitted r |}
  end.

Definition bit_ann (d : Decoder) (e : Z) : put_call :=
  {| ss := bitstartsample d; es := e; output_id := OUTPUT_ANN;
     data := (0, Text.str (lastbit d)) |}.

Definition word_ann (s e v : Z) : put_call :=
  {| ss := s; es := e; output_id := OUTPUT_ANN; data := (1, Text.fmt_X v) |}.

(** After the flush of the [except] block. *)
Definition flushed (l : bool) (r : Run) : Run :=
  let d := dec r in
  let nib := folded l (nibble d) (lastbit d) (nibblecount d) in
  {| dec := set_nibble nib d;
     pins := pins r;
     emitted :=
       emitted r ++
       [ bit_ann d (bitstartsample d + average d);
         word_ann (nibblestartsample d) (bitstartsample d + average d) nib ] |}.

(** After an active edge that found no bit pending. *)
Definition first_bit (sda : Z) (r : Run) : Run :=
  let d := dec r in
  {| dec :=
       {| samplenum := samplenum d;
          lastsamplenum := samplenum d;
          bitstartsample := samplenum d;
          lastbit := sda;
          bitlencount := bitlencount d + 1;
          bitlensum := bitlensum d;
          nibblecount := nibblecount d;
          nibble := nibble d;
          nibblestartsample := nibblestartsample d |};
     pins := pins r;
     emitted := emitted r |}.

(** After an active edge that finalized a pending bit. *)
Definition next_bit (wordlen : Z) (l : bool) (sda : Z) (r : Run) : Run :=
  let d := dec r in
  let e := fst (fst (measure_bit d)) in
  let bitlen := snd (fst (measure_bit d)) in
  let truncate := snd (measure_bit d) in
  let nib := folded l (nibble d) (lastbit d) (nibblecount d) in
  let nss := if nibblestartsample d =? 0 then bitstartsample d
             else nibblestartsample d in
  let flush := (nibblecount d + 1 >=? wordlen) || truncate in
  let updated := negb (bitstartsample d =? 0) in
  {| dec :=
       {| samplenum := samplenum d;
          lastsamplenum := samplenum d;
          bitstartsample := samplenum d;
          lastbit := sda;
          bitlencount := (if updated then bitlencount d + 1 else bitlencount d) + 1;
          bitlensum := if updated then bitlensum d + bitlen else bitlensum d;
          nibblecount := if flush then 0 else nibblecount d + 1;
          nibble := if flush then 0 else nib;
          nibblestartsample := if flush then 0 else nss |};
     pins := pins r;
     emitted :=
       emitted r ++
       bit_ann d e :: (if flush then [word_ann nss e nib] else []) |}.

(** The five ways a pass can go from a run whose [nibblecount] is not
    negative. *)
Inductive pass (o : Options) (w : wait_result) (r : Run) : outcome -> Prop :=
| pass_flush :
    (exists s, w = Exhausted s) ->
    nibblecount (dec r) > 0 ->
    pass o w r (Raise EOFError (flushed (lsbfirst o) (arrive w r)))
| pass_unbound :
    (exists s, w = Exhausted s) ->
    nibblecount (dec r) = 0 ->
    pins r = None ->
    pass o w r (Raise UnboundLocalError (arrive w r))
| pass_inactive clk sda :
    pins (arrive w r) = Some (clk, sda) ->
    is_active (clock_edge o) clk = false ->
    pass o w r (Continue (inactive_edge (arrive w r)))
| pass_first clk sda :
    pins (arrive w r) = Some (clk, sda) ->
    is_active (clock_edge o) clk = true ->
    bitlencount (dec r) <= 0 ->
    pass o w r (Continue (first_bit sda (arrive w r)))
| pass_pending clk sda :
    pins (arrive w r) = Some (clk, sda) ->
    is_active (clock_edge o) clk = true ->
    bitlencount (dec r) > 0 ->
    pass o w r (Continue (next_bit (bits o) (lsbfirst o) sda (arrive w r))).

(** ** Reading a trace of emitted output *)

(** Walks a trace oldest first, counting in [n] the bit annotations met since
    the last word annotation: the result lists that count at every word
    annotation (the size of the word, in annotated bits) and ends with the
    count of bit annotations that no word annotation has followed yet. *)
Fixpoint word_sizes_from (n : Z) (out : list put_call) : list Z * Z :=
  match out with
  | [] => ([], n)
  | p :: rest =>
      if is_word_ann p then
        let '(l, k) := word_sizes_from 0 rest in (n :: l, k)
      else word_sizes_from (if is_bit_ann p then n + 1 else n) rest
  end.

Definition word_sizes (out : list put_call) : list Z := fst (word_sizes_from 0 out).
Definition open_bits (out : list put_call) : Z := snd (word_sizes_from 0 out).

(** ** Captures used below *)

(** Active edges [L] samples apart, the first at sample [s], carrying the
    data levels [sdas] in turn (the clock level after each edge is 1). *)
Fixpoint equal_periods (s L : Z) (sdas : list Z) : list edge :=
  match sdas with
  | [] => []
  | b :: rest => mk_edge s 1 b :: equal_periods (s + L) L rest
  end.

Definition is_level (b : Z) : Prop := b = 0 \/ b = 1.

(** The run after three rising edges 10 samples apart (samples 10, 20, 30,
    data 1, 0, 1), 8-bit words, default bit order. *)
Definition after_three : Run :=
  Eval vm_compute in
    run_of (decode 3 default_options (equal_periods 10 10 [1; 0; 1]) 0 start).

(** ** Invariants of the loop *)

(** At the head of the loop the bit annotations put since the last word
    annotation are as many as the bits collected in [nibble]. *)
Definition counted (r : Run) : Prop :=
  0 <= nibblecount (dec r) /\ open_bits (emitted r) = nibblecount (dec r).

(** The word in progress is never full at the head of the loop. *)
Definition sized (o : Options) (r : Run) : Prop :=
  counted r /\ nibblecount (dec r) < bits o
  /\ Forall (fun k => 1 <= k <= bits o) (word_sizes (emitted r)).

(** What the bound needs at the head of the loop: levels in [lastbit] and in
    the local [sda]. *)
Definition bounded (r : Run) : Prop :=
  0 <= nibblecount (dec r)
  /\ 0 <= nibble (dec r) < 2 ^ nibblecount (dec r)
  /\ is_level (lastbit (dec r))
  /\ (forall clk sda, pins r = Some (clk, sda) -> is_level sda).

Definition level_in (w : wait_result) : Prop :=
  match w with
  | Matched _ _ sda => is_level sda
  | Exhausted _ => True
  end.

(** The estimator after [k] active edges [L] apart, the last at [s]. *)
Definition estimating (L k s : Z) (r : Run) : Prop :=
  0 <= nibblecount (dec r)
  /\ bitlencount (dec r) = 2 * k - 1
  /\ bitlensum (dec r) = (k - 1) * L
  /\ bitstartsample (dec r) = s.

(** ** Sample runs and words *)

(** The run after two rising edges (samples 10 and 20, data 1 then 0). *)
Definition after_two : Run :=
  Eval vm_compute in
    run_of (decode 2 default_options [mk_edge 10 1 1; mk_edge 20 1 0] 30 start).

(** The run that has taken one rising edge at sample 10 with data 1. *)
Definition after_one : Run :=
  Eval vm_compute in run_of (decode 1 default_options [mk_edge 10 1 1] 20 start).

(** The run that has taken a rising edge at sample 10 and a falling edge at
    sample 15, and in which [wait] has then raised once. *)
Definition idling : Run :=
  Eval vm_compute in
    run_of (decode 3 default_options [mk_edge 10 1 1; mk_edge 15 0 1] 20 start).

(** The eight low-order binary digits of [v], high-order first. *)
Definition word_bits (v : Z) : list Z :=
  map (fun i => Z.b2z (Z.testbit v i)) [7; 6; 5; 4; 3; 2; 1; 0].

Definition with_order (b : bitorder_option) : Options :=
  {| clock_edge := rising; bits := 8; bitorder := b |}.

(** ** Tactics *)

Ltac levels :=
  repeat (apply Forall_cons; [unfold is_level; simpl; auto|]); apply Forall_nil.

(** Closed goals: every conjunct by evaluation. *)
Ltac conj_compute :=
  repeat match goal with |- _ /\ _ => split end; vm_compute; reflexivity.

(** ** Further readings of captures and traces *)

(** The edges of a capture at which the decoder samples the data line. *)
Definition active_edges (o : Options) (src : list edge) : list edge :=
  filter (fun e => is_active (clock_edge o) (clk_pin e)) src.

(** The bit annotations of a trace, in the order they were put. *)
Definition bit_anns (out : list put_call) : list put_call :=
  filter is_bit_ann out.

(** Sample numbers that never go back: from [lo] through the capture to the
    sample number left at exhaustion. *)
Fixpoint ascending (lo : Z) (src : list edge) (eof : Z) : Prop :=
  match src with
  | [] => lo <= eof
  | e :: rest => lo <= at_sample e /\ ascending (at_sample e) rest eof
  end.

(** No annotation reaches past the start of a bit annotation put later. *)
Fixpoint non_overlapping (out : list put_call) : Prop :=
  match out with
  | [] => True
  | p :: rest =>
      Forall (fun q => is_bit_ann q = true -> es p <= ss q) rest
      /\ non_overlapping rest
  end.

(** The sample number a pass starts from. *)
Definition sample_of (w : wait_result) : Z :=
  match w with
  | Matched s _ _ => s
  | Exhausted s => s
  end.

(** What ascending sample numbers maintain at the head of the loop. *)
Definition timed (r : Run) : Prop :=
  0 <= nibblecount (dec r)
  /\ 0 <= bitlencount (dec r)
  /\ 0 <= bitlensum (dec r)
  /\ 0 <= samplenum (dec r)
  /\ lastsamplenum (dec r) <= samplenum (dec r)
  /\ nibblestartsample (dec r) <= bitstartsample (dec r) <= samplenum (dec r)
  /\ Forall (fun p => ss p <= es p /\ es p <= bitstartsample (dec r)) (emitted r)
  /\ non_overlapping (emitted r).

Definition well_spanned (out : list put_call) : Prop :=
  Forall (fun p => ss p <= es p) out /\ non_overlapping out.

(** ** Reading texts back *)

(** The value of a digit character, [0]-[9] then [A]-[F]. *)
Definition digit_value (c : ascii) : Z :=
  let n := Z.of_N (N_of_ascii c) in
  if n <? 58 then n - 48 else n - 55.

(** The number that a text of digits writes in [base], read from the left
    and starting from [v]. *)
Fixpoint text_value_from (base v : Z) (s : string) : Z :=
  match s with
  | EmptyString => v
  | String c rest => text_value_from base (v * base + digit_value c) rest
  end.

Definition text_value (base : Z) (s : string) : Z := text_value_from base 0 s.

(** The bit a bit annotation shows. *)
Definition bit_of (p : put_call) : Z :=
  if String.eqb (snd (data p)) "1" then 1 else 0.

(** Walks a trace oldest first, collecting in [acc] the bits shown by the bit
    annotations met since the last word annotation: the result pairs, for
    every word annotation, those bits in the order they were put with the text
    of the word, and ends with the bits no word annotation has followed. *)
Fixpoint words_from (acc : list Z) (out : list put_call)
  : list (list Z * string) * list Z :=
  match out with
  | [] => ([], acc)
  | p :: rest =>
      if is_word_ann p then
        let '(l, k) := words_from [] rest in ((acc, snd (data p)) :: l, k)
      else words_from (if is_bit_ann p then acc ++ [bit_of p] else acc) rest
  end.

Definition words (out : list put_call) : list (list Z * string) :=
  fst (words_from [] out).

(** The number whose binary digits are [bs], the first one the lowest. *)
Fixpoint first_low (bs : list Z) : Z :=
  match bs with
  | [] => 0
  | b :: rest => b + 2 * first_low rest
  end.

(** The number whose binary digits are [bs], the first one the highest. *)
Definition first_high (bs : list Z) : Z :=
  fold_left (fun v b => 2 * v + b) bs 0.

(** The bits [bs] as the branch of the bit order collects them. *)
Definition collected (l : bool) (bs : list Z) : Z :=
  if l then first_high bs else first_low bs.

Definition shows_bit (p : put_call) : Prop :=
  is_bit_ann p = true -> snd (data p) = "0"%string \/ snd (data p) = "1"%string.

Definition shows_word (l : bool) (w : list Z * string) : Prop :=
  Forall is_level (fst w) /\ snd w = Text.fmt_X (collected l (fst w)).

(** What levels on the data line maintain at the head of the loop. *)
Definition packed (o : Options) (r : Run) : Prop :=
  0 <= nibblecount (dec r)
  /\ is_level (lastbit (dec r))
  /\ (forall clk sda, pins r = Some (clk, sda) -> is_level sda)
  /\ Forall shows_bit (emitted r)
  /\ Forall (shows_word (lsbfirst o)) (words (emitted r))
  /\ Forall is_level (snd (words_from [] (emitted r)))
  /\ Z.of_nat (length (snd (words_from [] (emitted r)))) = nibblecount (dec r)
  /\ nibble (dec r) = collected (lsbfirst o) (snd (words_from [] (emitted r))).

Definition shown (o : Options) (out : list put_call) : Prop :=
  Forall shows_bit out /\ Forall (shows_word (lsbfirst o)) (words out).

Ltac conjs := repeat match goal with |- _ /\ _ => split end.

(** The first word annotation of the run, once there is one, starts at
    sample [p]; until then [nibblestartsample] holds [p]. *)
Definition first_word_at (p : Z) (r : Run) : Prop :=
  0 <= nibblecount (dec r)
  /\ lastsamplenum (dec r) <> 0
  /\ match find is_word_ann (emitted r) with
     | Some w => ss w = p
     | None => nibblestartsample (dec r) = p
     end.

(** How wide the annotations of a steady clock are: a bit is one period, a
    word is [wordlen] periods. *)
Definition steady_span (L wordlen : Z) (p : put_call) : Prop :=
  (is_bit_ann p = true -> es p = ss p + L)
  /\ (is_word_ann p = true -> es p = ss p + wordlen * L).

(** The run after [k] active edges [L] apart, the last at [s], as far as
    the spans go. *)
Definition steady (L wordlen k s : Z) (r : Run) : Prop :=
  estimating L k s r
  /\ nibblecount (dec r) < wordlen
  /\ 0 < s - nibblecount (dec r) * L
  /\ nibblestartsample (dec r)
     = (if nibblecount (dec r) =? 0 then 0 else s - nibblecount (dec r) * L)
  /\ Forall (steady_span L wordlen) (emitted r).

(** ** The double quotient

    [a / b] on two [int]s is the binary64 number nearest to the quotient
    (ties to even), whatever the size of [a] and [b]; [math.ceil] then gives
    back an [int]. *)

Module Double.

(** The integer nearest to [num / den], ties to even, for [0 <= num] and
    [0 < den]. *)
Definition round_half_even (num den : Z) : Z :=
  let f := num / den in
  let r2 := 2 * (num mod den) in
  if r2 <? den then f
  else if den <? r2 then f + 1
  else if Z.even f then f else f + 1.

(** The double nearest to [a / b] for [0 <= a] and [0 < b], as the pair
    [(m, e)] that stands for [m * 2 ^ (e - 1074)]: [2 ^ -1074] is the
    smallest positive double, the significand [m] has 53 bits, fewer for a
    subnormal, and is [2 ^ 53] when rounding carries. *)
Definition quotient (a b : Z) : Z * Z :=
  let n := a * 2 ^ 1074 in
  let e := Z.max (Z.log2 (n / b) - 52) 0 in
  (round_half_even n (b * 2 ^ e), e).

(** [a / b]: [None] is [ZeroDivisionError], or [OverflowError] when the
    result would reach [2 ^ 1024]. *)
Definition true_divide (a b : Z) : option (Z * Z) :=
  if b =? 0 then None
  else
    let '(m, e) := quotient (Z.abs a) (Z.abs b) in
    if 2 ^ 2098 <=? m * 2 ^ e then None
    else Some (Z.sgn a * Z.sgn b * m, e).

(** [math.ceil] of the double [m * 2 ^ (e - 1074)]. *)
Definition ceil (x : Z * Z) : Z :=
  let '(m, e) := x in - ((- (m * 2 ^ e)) / 2 ^ 1074).

(** [ceil(a / b)]. *)
Definition ceil_true_divide (a b : Z) : option Z :=
  option_map ceil (true_divide a b).

End Double.

(** * Properties *)

(** ** The loop *)

Section RunInvariants.

Variable o : Options.
Variable eof : Z.
(** What is known of every edge of the capture, and the invariant. *)
Variable E : edge -> Prop.
Variable P : Run -> Prop.

Hypothesis P_matched :
  forall e r r',
    E e -> P r ->
    loop_body o (Matched (at_sample e) (clk_pin e) (sda_pin e)) r = Continue r' ->
    P r'.
Hypothesis P_exhausted :
  forall s r r', P r -> loop_body o (Exhausted s) r = Continue r' -> P r'.

Lemma P_wait (src : list edge) (r r' : Run) :
  Forall E src -> P r -> loop_body o (wait src eof) r = Continue r' -> P r'.
Proof.
  intros Hs HP H. destruct src as [|e src]; simpl in H.
  - eapply P_exhausted; eauto.
  - inversion Hs; subst. eapply P_matched; eauto.
Qed.

Lemma Forall_tl (src : list edge) : Forall E src -> Forall E (tl src).
Proof. intro H. destruct src; simpl; auto. now inversion H. Qed.

Lemma decode_continue_inv (fuel : nat) :
  forall src r r',
    Forall E src -> P r -> decode fuel o src eof r = Continue r' -> P r'.
Proof.
  induction fuel as [|fuel IH]; intros src r r' Hs HP H; simpl in H.
  - now inversion H; subst.
  - destruct (loop_body o (wait src eof) r) as [r1|e r1] eqn:Eq; [|discriminate].
    eapply IH; [apply Forall_tl; eassumption| |exact H].
    eapply P_wait; eauto.
Qed.

(** A run that has left the loop did so in a pass begun under the
    invariant. *)
Lemma decode_raise_inv (fuel : nat) :
  forall src r e r',
    Forall E src -> P r -> decode fuel o src eof r = Raise e r' ->
    exists w r0, P r0 /\ loop_body o w r0 = Raise e r'.
Proof.
  induction fuel as [|fuel IH]; intros src r e r' Hs HP H; simpl in H.
  - discriminate.
  - destruct (loop_body o (wait src eof) r) as [r1|e1 r1] eqn:Eq.
    + eapply IH; [apply Forall_tl; eassumption| |exact H].
      eapply P_wait; eauto.
    + inversion H; subst. eauto.
Qed.

End RunInvariants.

Lemma decode_split (n : nat) (o : Options) (src : list edge) (eof : Z) (r r1 : Run) :
  decode n o src eof r = Continue r1 ->
  forall m, decode (n + m) o src eof r = decode m o (skipn n src) eof r1.
Proof.
  revert src r; induction n as [|n IH]; intros src r H m; simpl in H.
  - inversion H; subst. reflexivity.
  - simpl. destruct (loop_body o (wait src eof) r) as [r2|e r2]; [|discriminate].
    rewrite (IH _ _ H m). destruct src; simpl; [now rewrite skipn_nil|reflexivity].
Qed.

Lemma any_edge (src : list edge) : Forall (fun _ => True) src.
Proof. induction src; auto. Qed.

(** ** Arithmetic of the average *)

Lemma ceil_div_ge (a b : Z) : 0 < b -> a <= b * ceil_div a b.
Proof.
  intro Hb. unfold ceil_div.
  pose proof (Z.mul_div_le (- a) b Hb). lia.
Qed.

Lemma ceil_div_le (a b c : Z) : 0 < b -> a <= c * b -> ceil_div a b <= c.
Proof.
  intros Hb H. unfold ceil_div.
  assert (- c <= (- a) / b); [|lia].
  apply Z.div_le_lower_bound; lia.
Qed.

Lemma ceil_div_nonneg (a b : Z) : 0 < b -> 0 <= a -> 0 <= ceil_div a b.
Proof.
  intros Hb Ha. unfold ceil_div.
  assert ((- a) / b <= 0); [|lia].
  apply Z.div_le_upper_bound; lia.
Qed.

(** ** The branches of a pass *)

Lemma fold_bit_some (l : bool) (n b c : Z) :
  0 <= c -> fold_bit l n b c = Some (folded l n b c).
Proof.
  intro H. unfold fold_bit, folded. destruct l; auto.
  destruct (Z.ltb_spec c 0); auto. lia.
Qed.

Lemma on_exhausted_continue (l : bool) (r : Run) :
  nibblecount (dec r) <= 0 -> on_exhausted l r = Continue r.
Proof.
  intro H. unfold on_exhausted.
  destruct (Z.gtb_spec (nibblecount (dec r)) 0); auto. lia.
Qed.

Lemma on_exhausted_raise (l : bool) (r : Run) :
  nibblecount (dec r) > 0 -> on_exhausted l r = Raise EOFError (flushed l r).
Proof.
  intro H. unfold on_exhausted, flushed.
  destruct (Z.gtb_spec (nibblecount (dec r)) 0); [|lia].
  rewrite fold_bit_some by lia. unfold put, out_ann, bit_ann, word_ann.
  now rewrite <- app_assoc.
Qed.

Lemma active_edge_pending (wordlen : Z) (l : bool) (sda : Z) (r : Run) :
  bitlencount (dec r) > 0 -> 0 <= nibblecount (dec r) ->
  active_edge wordlen l sda r = Continue (next_bit wordlen l sda r).
Proof.
  intros Hc Hn. unfold active_edge, next_bit.
  destruct (Z.gtb_spec (bitlencount (dec r)) 0); [|lia].
  rewrite fold_bit_some by assumption.
  destruct (measure_bit (dec r)) as [[e bitlen] truncate]; cbn [fst snd].
  unfold put, out_ann, bit_ann, word_ann.
  destruct ((nibblecount (dec r) + 1 >=? wordlen) || truncate);
    [rewrite <- app_assoc|]; reflexivity.
Qed.

Lemma active_edge_first (wordlen : Z) (l : bool) (sda : Z) (r : Run) :
  bitlencount (dec r) <= 0 ->
  active_edge wordlen l sda r = Continue (first_bit sda r).
Proof.
  intro Hc. unfold active_edge, first_bit.
  destruct (Z.gtb_spec (bitlencount (dec r)) 0); [lia|]. reflexivity.
Qed.

Lemma loop_body_arrive (o : Options) (w : wait_result) (r : Run) :
  loop_body o w r =
  match w with
  | Matched _ _ _ => on_edge o (arrive w r)
  | Exhausted _ =>
      match on_exhausted (lsbfirst o) (arrive w r) with
      | Continue r' => on_edge o r'
      | stop => stop
      end
  end.
Proof. destruct w; reflexivity. Qed.

Lemma on_edge_pass (o : Options) (w : wait_result) (r : Run) :
  0 <= nibblecount (dec r) ->
  (pins (arrive w r) = None -> (exists s, w = Exhausted s) /\ pins r = None) ->
  (pins (arrive w r) = None -> nibblecount (dec r) = 0) ->
  pass o w r (on_edge o (arrive w r)).
Proof.
  intros Hn Hnone Hzero. unfold on_edge.
  destruct (pins (arrive w r)) as [[clk sda]|] eqn:Ep.
  - destruct (is_active (clock_edge o) clk) eqn:Ea.
    + assert (Hc : bitlencount (dec (arrive w r)) = bitlencount (dec r))
        by (destruct w; reflexivity).
      assert (Hk : nibblecount (dec (arrive w r)) = nibblecount (dec r))
        by (destruct w; reflexivity).
      destruct (Z_gt_le_dec (bitlencount (dec r)) 0) as [H|H].
      * rewrite active_edge_pending by lia. eapply pass_pending; eauto.
      * rewrite active_edge_first by lia. eapply pass_first; eauto.
    + eapply pass_inactive; eauto.
  - destruct (Hnone eq_refl) as [Hw Hp]. apply pass_unbound; auto.
Qed.

(** Every pass from a run with a legal [nibblecount] is one of the five. *)
Lemma loop_body_pass (o : Options) (w : wait_result) (r : Run) :
  0 <= nibblecount (dec r) -> pass o w r (loop_body o w r).
Proof.
  intro Hn. rewrite loop_body_arrive. destruct w as [s clk sda|s].
  - apply on_edge_pass; auto; simpl; discriminate.
  - destruct (Z_gt_le_dec (nibblecount (dec r)) 0) as [H|H].
    + rewrite on_exhausted_raise by exact H. apply pass_flush; eauto.
    + rewrite on_exhausted_continue by exact H.
      apply on_edge_pass; auto; simpl; intros; [eauto|lia].
Qed.

Lemma loop_body_active (o : Options) (s clk sda : Z) (r : Run) :
  is_active (clock_edge o) clk = true ->
  loop_body o (Matched s clk sda) r =
  active_edge (bits o) (lsbfirst o) sda (arrive (Matched s clk sda) r).
Proof. intro H. unfold loop_body, on_edge; simpl. now rewrite H. Qed.

Lemma measure_bit_truncate (d : Decoder) :
  snd (measure_bit d) = true <->
  bitlencount d > 3 /\ samplenum d - bitstartsample d > 4 * average d.
Proof.
  unfold measure_bit.
  destruct (Z.gtb_spec (bitlencount d) 3);
    destruct (Z.gtb_spec (samplenum d - bitstartsample d) (average d * 4));
    cbn [snd andb]; (split; [intros ?|intros [? ?]]);
    try discriminate; try lia; auto.
Qed.

Lemma measure_bit_end (d : Decoder) :
  fst (fst (measure_bit d)) =
  (if snd (measure_bit d) then bitstartsample d + 4 * average d else samplenum d)
  /\ snd (fst (measure_bit d)) =
  (if snd (measure_bit d) then 4 * average d
   else samplenum d - bitstartsample d).
Proof.
  unfold measure_bit.
  destruct ((bitlencount d >? 3) &&
            (samplenum d - bitstartsample d >? average d * 4));
    cbn [fst snd]; split; lia.
Qed.

(** ** Outputs *)

Lemma pass_only_ann (o : Options) (w : wait_result) (r : Run) (x : outcome) :
  pass o w r x ->
  Forall (fun p => output_id p = OUTPUT_ANN) (emitted r) ->
  Forall (fun p => output_id p = OUTPUT_ANN) (emitted (run_of x)).
Proof.
  intros Hp H.
  destruct Hp; destruct w; simpl; unfold inactive_edge; simpl;
    repeat match goal with
      | |- context [if ?c then _ else _] => destruct c; simpl
      end;
    repeat (apply Forall_app; split); auto; repeat constructor.
Qed.

Lemma arrive_emitted (w : wait_result) (r : Run) : emitted (arrive w r) = emitted r.
Proof. destruct w; reflexivity. Qed.

Lemma arrive_bit_ann (w : wait_result) (r : Run) (e : Z) :
  bit_ann (dec (arrive w r)) e = bit_ann (dec r) e.
Proof. destruct w; reflexivity. Qed.

Lemma arrive_folded (l : bool) (w : wait_result) (r : Run) :
  folded l (nibble (dec (arrive w r))) (lastbit (dec (arrive w r)))
         (nibblecount (dec (arrive w r))) =
  folded l (nibble (dec r)) (lastbit (dec r)) (nibblecount (dec r)).
Proof. destruct w; reflexivity. Qed.

Lemma arrive_nibblecount (w : wait_result) (r : Run) :
  nibblecount (dec (arrive w r)) = nibblecount (dec r).
Proof. destruct w; reflexivity. Qed.

Lemma arrive_nibble (w : wait_result) (r : Run) :
  nibble (dec (arrive w r)) = nibble (dec r).
Proof. destruct w; reflexivity. Qed.

Lemma inactive_edge_keeps (r : Run) :
  emitted (inactive_edge r) = emitted r
  /\ nibble (dec (inactive_edge r)) = nibble (dec r)
  /\ nibblecount (dec (inactive_edge r)) = nibblecount (dec r)
  /\ lastbit (dec (inactive_edge r)) = lastbit (dec r)
  /\ pins (inactive_edge r) = pins r.
Proof. unfold inactive_edge. destruct (lastsamplenum (dec r) =? 0); simpl; auto. Qed.

(** The legality of the shift count is an invariant of the loop. *)
Lemma pass_nibblecount (o : Options) (w : wait_result) (r r' : Run) :
  pass o w r (Continue r') -> 0 <= nibblecount (dec r) -> 0 <= nibblecount (dec r').
Proof.
  intros Hp Hn. inversion Hp; subst; clear Hp.
  - destruct (inactive_edge_keeps (arrive w r)) as (_ & _ & Hk & _).
    rewrite Hk, arrive_nibblecount. exact Hn.
  - simpl. now rewrite arrive_nibblecount.
  - simpl. rewrite arrive_nibblecount.
    destruct (_ || _); lia.
Qed.

Lemma loop_body_nibblecount (o : Options) (w : wait_result) (r r' : Run) :
  0 <= nibblecount (dec r) -> loop_body o w r = Continue r' ->
  0 <= nibblecount (dec r').
Proof.
  intros Hn H. pose proof (loop_body_pass o w r Hn) as Hp. rewrite H in Hp.
  eapply pass_nibblecount; eauto.
Qed.

Lemma decode_nibblecount (fuel : nat) (o : Options) (src : list edge) (eof : Z)
      (r : Run) :
  decode fuel o src eof start = Continue r -> 0 <= nibblecount (dec r).
Proof.
  intro Hd.
  apply (decode_continue_inv o eof (fun _ => True)
           (fun r => 0 <= nibblecount (dec r))
           (fun e r0 r' _ Hn => loop_body_nibblecount o _ r0 r' Hn)
           (fun s r0 r' Hn => loop_body_nibblecount o _ r0 r' Hn)
           fuel src start r (any_edge src)); [simpl; lia|exact Hd].
Qed.

(** C8: whatever the options and the capture, and however long the run is
    observed, every record the decoder has put went to the annotation output:
    nothing is written to the Python, binary or metadata outputs. *)
Theorem decode_puts_annotations_only
  (fuel : nat) (o : Options) (src : list edge) (eof : Z) :
  Forall (fun p => output_id p = OUTPUT_ANN)
         (emitted (run_of (decode fuel o src eof start))).
Proof.
  set (P := fun r => 0 <= nibblecount (dec r) /\
                     Forall (fun p => output_id p = OUTPUT_ANN) (emitted r)).
  assert (Hstep : forall w r r', P r -> loop_body o w r = Continue r' -> P r').
  { intros w r r' [Hn Ha] H. split; [eapply loop_body_nibblecount; eauto|].
    pose proof (pass_only_ann o w r _ (loop_body_pass o w r Hn) Ha) as Hx.
    now rewrite H in Hx. }
  assert (H0 : P start) by (split; simpl; [lia|constructor]).
  destruct (decode fuel o src eof start) as [r|e r] eqn:Hd; simpl.
  - apply (decode_continue_inv o eof (fun _ => True) P
             (fun e r0 r' _ => Hstep _ r0 r') (fun s r0 r' => Hstep _ r0 r')
             fuel src start r (any_edge src) H0 Hd).
  - destruct (decode_raise_inv o eof (fun _ => True) P
                (fun e r0 r' _ => Hstep _ r0 r') (fun s r0 r' => Hstep _ r0 r')
                fuel src start e r (any_edge src) H0 Hd)
      as (w & r0 & [Hn Ha] & Hr).
    pose proof (pass_only_ann o w r0 _ (loop_body_pass o w r0 Hn) Ha) as Hx.
    now rewrite Hr in Hx.
Qed.

(** ** One active edge *)

(** C4: at an active edge that finalizes a pending bit, the bit is truncated
    exactly when more than 3 periods are counted and the new length is
    strictly above 4 times the running average; a length equal to 4 times the
    average is not truncated, nor is anything while the count is at most 3.
    The bit annotation put by that pass ends at the edge unless truncated,
    and then at 4 averages past the start of the bit, and a truncation always
    flushes the word. *)
Theorem truncation_rule (o : Options) (s clk sda : Z) (r : Run) :
  is_active (clock_edge o) clk = true ->
  bitlencount (dec r) > 0 ->
  0 <= nibblecount (dec r) ->
  let d := set_samplenum s (dec r) in
  let bitlen := s - bitstartsample d in
  let truncated := snd (measure_bit d) in
  (truncated = true <-> bitlencount d > 3 /\ bitlen > 4 * average d)
  /\ (bitlen = 4 * average d -> truncated = false)
  /\ (bitlencount d <= 3 -> truncated = false)
  /\ exists r',
      loop_body o (Matched s clk sda) r = Continue r'
      /\ nth_error (emitted r') (length (emitted r)) =
         Some {| ss := bitstartsample d;
                 es := if truncated then bitstartsample d + 4 * average d else s;
                 output_id := OUTPUT_ANN;
                 data := (0, Text.str (lastbit d)) |}
      /\ (truncated = true ->
          nibblecount (dec r') = 0
          /\ exists w, nth_error (emitted r') (S (length (emitted r))) = Some w
                       /\ is_word_ann w = true
                       /\ es w = bitstartsample d + 4 * average d).
Proof.
  intros Hact Hc Hn d bitlen truncated.
  pose proof (measure_bit_truncate d) as Ht.
  pose proof (measure_bit_end d) as [He _].
  fold truncated in Ht, He.
  assert (Hs : samplenum d = s) by reflexivity. rewrite Hs in *.
  fold bitlen in Ht.
  split; [exact Ht|].
  split; [intro H; destruct truncated; auto; destruct (proj1 Ht eq_refl); lia|].
  split; [intro H; destruct truncated; auto; destruct (proj1 Ht eq_refl); lia|].
  rewrite (loop_body_active o s clk sda r Hact).
  rewrite active_edge_pending by assumption.
  eexists; split; [reflexivity|]. unfold next_bit. cbn [emitted dec arrive].
  fold d. fold truncated. rewrite He. unfold bit_ann, word_ann.
  split.
  - rewrite nth_error_app2 by lia. now rewrite Nat.sub_diag.
  - intro Htr. rewrite Htr, orb_true_r. split; [reflexivity|].
    eexists; split.
    + rewrite nth_error_app2 by lia.
      replace (S (length (emitted r)) - length (emitted r))%nat with 1%nat by lia.
      reflexivity.
    + split; reflexivity.
Qed.

Lemma truncation_rule_witness :
  snd (measure_bit (set_samplenum 100 (dec after_three))) = true <->
  bitlencount (set_samplenum 100 (dec after_three)) > 3 /\
  100 - bitstartsample (set_samplenum 100 (dec after_three)) >
  4 * average (set_samplenum 100 (dec after_three)).
Proof.
  apply (truncation_rule default_options 100 1 0 after_three);
    [reflexivity | reflexivity | discriminate].
Defined.

(** C5: on an active edge the period counter goes up by 2 when a pending bit
    whose start sample is not 0 is finalized (once with the estimator, once
    when the next bit starts) and by 1 otherwise; the period sum grows, by
    the capped bit length, in the first case only. *)
Theorem estimator_update (o : Options) (s clk sda : Z) (r : Run) :
  is_active (clock_edge o) clk = true ->
  0 <= nibblecount (dec r) ->
  let d := set_samplenum s (dec r) in
  let capped := if snd (measure_bit d) then 4 * average d
                else s - bitstartsample d in
  exists r',
    loop_body o (Matched s clk sda) r = Continue r'
    /\ (bitlencount d > 0 /\ bitstartsample d <> 0 ->
        bitlencount (dec r') = bitlencount d + 2
        /\ bitlensum (dec r') = bitlensum d + capped)
    /\ (~ (bitlencount d > 0 /\ bitstartsample d <> 0) ->
        bitlencount (dec r') = bitlencount d + 1
        /\ bitlensum (dec r') = bitlensum d).
Proof.
  intros Hact Hn d capped.
  rewrite (loop_body_active o s clk sda r Hact).
  destruct (Z_gt_le_dec (bitlencount (dec r)) 0) as [Hc|Hc].
  - rewrite active_edge_pending by assumption.
    eexists; split; [reflexivity|]. unfold next_bit. cbn [dec arrive].
    fold d. destruct (measure_bit_end d) as [_ Hl]. rewrite Hl.
    change (samplenum d) with s. fold capped.
    assert (Hd : bitlencount d > 0) by exact Hc.
    destruct (Z.eqb_spec (bitstartsample d) 0) as [E|E];
      cbn [negb bitlencount bitlensum]; split; intros; try tauto; lia.
  - rewrite active_edge_first by assumption.
    eexists; split; [reflexivity|]. unfold first_bit.
    assert (Hd : bitlencount d <= 0) by exact Hc.
    cbn [dec arrive bitlencount bitlensum]. fold d.
    split; intros; [lia|split; reflexivity].
Qed.

Lemma estimator_update_witness :
  exists r',
    loop_body default_options (Matched 40 1 1) after_three = Continue r'
    /\ bitlencount (dec r') = 7 /\ bitlensum (dec r') = 30.
Proof.
  destruct (estimator_update default_options 40 1 1 after_three)
    as [r' [H [H2 _]]]; [reflexivity | discriminate |].
  exists r'. split; [exact H|].
  apply H2. split; [reflexivity | discriminate].
Defined.

(** ** Exhaustion *)

(** C6: when [wait] raises while [nibblecount > 0], the period sum being
    below [2 ^ 53], where the ceiling of the double quotient is the exact
    ceiling, the decoder folds [lastbit] into [nibble] once more by the
    configured rule, takes [average = ceil(bitlensum / bitlencount)] (0 for a
    zero count), puts one bit annotation over
    [bitstartsample, bitstartsample + average) showing [lastbit], then one
    word annotation over [nibblestartsample, bitstartsample + average)
    showing the folded value, and leaves with [EOFError]. *)
Theorem exhausted_flush (o : Options) (s : Z) (r : Run) :
  nibblecount (dec r) > 0 ->
  0 <= bitlensum (dec r) < 2 ^ 53 ->
  let d := dec r in
  let word :=
    match bitorder o with
    | lsb_first => Z.lor (Z.shiftl (nibble d) 1) (lastbit d)
    | msb_first => Z.lor (nibble d) (Z.shiftl (lastbit d) (nibblecount d))
    end in
  let avg := if bitlencount d =? 0 then 0
             else ceil_div (bitlensum d) (bitlencount d) in
  loop_body o (Exhausted s) r =
  Raise EOFError
    {| dec := set_nibble word (set_samplenum s d);
       pins := pins r;
       emitted :=
         emitted r ++
         [ {| ss := bitstartsample d; es := bitstartsample d + avg;
              output_id := OUTPUT_ANN; data := (0, Text.str (lastbit d)) |};
           {| ss := nibblestartsample d; es := bitstartsample d + avg;
              output_id := OUTPUT_ANN; data := (1, Text.fmt_X word) |} ] |}.
Proof.
  intros Hn _ d word avg. unfold loop_body.
  rewrite on_exhausted_raise by exact Hn.
  unfold flushed, folded, lsbfirst, bit_ann, word_ann. cbn [dec pins emitted].
  subst word avg d. destruct (bitorder o); reflexivity.
Qed.

Lemma exhausted_flush_witness :
  emitted (run_of (loop_body default_options (Exhausted 35) after_three)) =
  [ {| ss := 10; es := 20; output_id := OUTPUT_ANN; data := (0, "1"%string) |};
    {| ss := 20; es := 30; output_id := OUTPUT_ANN; data := (0, "0"%string) |};
    {| ss := 30; es := 34; output_id := OUTPUT_ANN; data := (0, "1"%string) |};
    {| ss := 10; es := 34; output_id := OUTPUT_ANN; data := (1, "5"%string) |} ].
Proof.
  rewrite (exhausted_flush default_options 35 after_three);
    [reflexivity | reflexivity | split; [discriminate | reflexivity]].
Defined.

(** ** Bits and words in the trace *)

Lemma word_sizes_from_app (a b : list put_call) :
  forall n,
    word_sizes_from n (a ++ b) =
    (fst (word_sizes_from n a) ++ fst (word_sizes_from (snd (word_sizes_from n a)) b),
     snd (word_sizes_from (snd (word_sizes_from n a)) b)).
Proof.
  induction a as [|p a IH]; intro n; simpl.
  - now destruct (word_sizes_from n b).
  - destruct (is_word_ann p).
    + rewrite IH. now destruct (word_sizes_from 0 a).
    + apply IH.
Qed.

Lemma scan_bit (out : list put_call) (d : Decoder) (e : Z) :
  word_sizes_from 0 (out ++ [bit_ann d e]) = (word_sizes out, open_bits out + 1).
Proof.
  rewrite word_sizes_from_app. unfold word_sizes, open_bits. simpl.
  now rewrite app_nil_r.
Qed.

Lemma scan_bit_word (out : list put_call) (d : Decoder) (e s e' v : Z) :
  word_sizes_from 0 (out ++ [bit_ann d e; word_ann s e' v]) =
  (word_sizes out ++ [open_bits out + 1], 0).
Proof.
  rewrite word_sizes_from_app. unfold word_sizes, open_bits. reflexivity.
Qed.

Lemma scan_next_bit (wordlen : Z) (l : bool) (sda : Z) (r : Run) :
  word_sizes_from 0 (emitted (next_bit wordlen l sda r)) =
  if (nibblecount (dec r) + 1 >=? wordlen) || snd (measure_bit (dec r))
  then (word_sizes (emitted r) ++ [open_bits (emitted r) + 1], 0)
  else (word_sizes (emitted r), open_bits (emitted r) + 1).
Proof.
  unfold next_bit. cbn [emitted].
  destruct ((nibblecount (dec r) + 1 >=? wordlen) || snd (measure_bit (dec r))).
  - apply scan_bit_word.
  - apply scan_bit.
Qed.

Lemma scan_flushed (l : bool) (r : Run) :
  word_sizes_from 0 (emitted (flushed l r)) =
  (word_sizes (emitted r) ++ [open_bits (emitted r) + 1], 0).
Proof. unfold flushed. cbn [emitted]. apply scan_bit_word. Qed.

Lemma pass_counted (o : Options) (w : wait_result) (r r' : Run) :
  pass o w r (Continue r') -> counted r -> counted r'.
Proof.
  intros Hp [Hn Hc]. split; [eapply pass_nibblecount; eauto|].
  inversion Hp; subst; clear Hp.
  - destruct (inactive_edge_keeps (arrive w r)) as (He & _ & Hk & _).
    now rewrite He, Hk, arrive_emitted, arrive_nibblecount.
  - simpl. now rewrite arrive_emitted, arrive_nibblecount.
  - unfold open_bits. rewrite scan_next_bit.
    rewrite arrive_emitted, arrive_nibblecount.
    unfold next_bit. cbn [dec nibblecount]. rewrite arrive_nibblecount.
    destruct (_ || _); simpl; lia.
Qed.

Lemma decode_counted (fuel : nat) (o : Options) (src : list edge) (eof : Z)
      (r : Run) :
  decode fuel o src eof start = Continue r -> counted r.
Proof.
  intro Hd.
  assert (Hstep : forall w r0 r', counted r0 -> loop_body o w r0 = Continue r' ->
                                  counted r').
  { intros w r0 r' Hc H. pose proof (loop_body_pass o w r0 (proj1 Hc)) as Hp.
    rewrite H in Hp. eapply pass_counted; eauto. }
  apply (decode_continue_inv o eof (fun _ => True) counted
           (fun e r0 r' _ => Hstep _ r0 r') (fun s r0 r' => Hstep _ r0 r')
           fuel src start r (any_edge src)); [|exact Hd].
  split; [simpl; lia|reflexivity].
Qed.

(** C9: at the head of every pass of every run, the bit annotations put
    since the last word annotation are exactly as many as the bits folded
    into the word in progress; and a pass either folds nothing and puts
    nothing, or folds [lastbit] and puts its bit annotation, or folds
    [lastbit], puts its bit annotation and after it the word annotation
    showing the folded value (at an edge and at exhaustion alike).  A word
    annotation is thus always put after the bit annotation of every bit the
    word holds. *)
Theorem bit_annotation_precedes_word
  (fuel : nat) (o : Options) (src : list edge) (eof : Z) (r : Run)
  (w : wait_result) :
  decode fuel o src eof start = Continue r ->
  let d := dec r in
  let nib := folded (lsbfirst o) (nibble d) (lastbit d) (nibblecount d) in
  let r' := run_of (loop_body o w r) in
  open_bits (emitted r) = nibblecount d
  /\ ((emitted r' = emitted r
       /\ nibble (dec r') = nibble d /\ nibblecount (dec r') = nibblecount d)
      \/ exists b,
          data b = (0, Text.str (lastbit d))
          /\ ((emitted r' = emitted r ++ [b]
               /\ nibble (dec r') = nib
               /\ nibblecount (dec r') = nibblecount d + 1)
              \/ exists wd,
                  emitted r' = emitted r ++ [b; wd]
                  /\ data wd = (1, Text.fmt_X nib))).
Proof.
  intros Hd d nib r'. destruct (decode_counted _ _ _ _ _ Hd) as [Hn Hc].
  split; [exact Hc|].
  pose proof (loop_body_pass o w r Hn) as Hp. subst r'.
  inversion Hp as [Hw Hk Hx|Hw Hk Hpin Hx|clk sda Hpin Ha Hx|clk sda Hpin Ha Hb Hx
                   |clk sda Hpin Ha Hb Hx]; clear Hp; cbn [run_of].
  - right. exists (bit_ann d (bitstartsample d + average (dec (arrive w r)))).
    split; [reflexivity|]. right. eexists; split.
    + unfold flushed. cbn [emitted]. rewrite arrive_emitted.
      destruct Hw as [s ->]. reflexivity.
    + unfold word_ann. cbn [data]. now rewrite arrive_folded.
  - left. now rewrite arrive_emitted, arrive_nibble, arrive_nibblecount.
  - left. destruct (inactive_edge_keeps (arrive w r)) as (He & Hv & Hk & _).
    now rewrite He, Hv, Hk, arrive_emitted, arrive_nibble, arrive_nibblecount.
  - left. unfold first_bit. cbn [emitted dec nibble nibblecount].
    now rewrite arrive_emitted, arrive_nibble, arrive_nibblecount.
  - right. exists (bit_ann d (fst (fst (measure_bit (dec (arrive w r)))))).
    split; [reflexivity|].
    unfold next_bit. cbn [emitted dec nibble nibblecount].
    rewrite arrive_emitted, arrive_folded, arrive_nibblecount, arrive_bit_ann.
    fold d. fold nib.
    destruct (_ || _).
    + right. eexists; split; [reflexivity|reflexivity].
    + left. auto.
Qed.

Lemma bit_annotation_precedes_word_witness :
  open_bits (emitted after_three) = 2
  /\ exists b wd,
      emitted (run_of (loop_body default_options (Exhausted 35) after_three)) =
      emitted after_three ++ [b; wd]
      /\ data b = (0, "1"%string) /\ data wd = (1, "5"%string).
Proof.
  destruct (bit_annotation_precedes_word 3 default_options
              (equal_periods 10 10 [1; 0; 1]) 0 after_three (Exhausted 35)
              eq_refl) as [H1 H2].
  split; [exact H1|].
  destruct H2 as [[H _]|[b [Hb [[H _]|[wd [H Hw]]]]]].
  - exfalso. apply (f_equal (@length put_call)) in H. discriminate H.
  - exfalso. apply (f_equal (@length put_call)) in H. discriminate H.
  - exists b, wd. split; [exact H|]. split; [exact Hb|exact Hw].
Defined.

(** ** Size of the words *)

Lemma pass_sized (o : Options) (w : wait_result) (r r' : Run) :
  1 <= bits o -> pass o w r (Continue r') -> sized o r -> sized o r'.
Proof.
  intros Hb Hp (Hc & Hk & Hf). split; [eapply pass_counted; eauto|].
  destruct Hc as [Hn Hc].
  inversion Hp; subst; clear Hp.
  - destruct (inactive_edge_keeps (arrive w r)) as (He & _ & Hk' & _).
    now rewrite He, Hk', arrive_emitted, arrive_nibblecount.
  - simpl. now rewrite arrive_emitted, arrive_nibblecount.
  - unfold word_sizes. rewrite scan_next_bit.
    rewrite arrive_emitted, arrive_nibblecount.
    unfold next_bit. cbn [dec nibblecount]. rewrite arrive_nibblecount.
    destruct (Z.geb_spec (nibblecount (dec r) + 1) (bits o)); cbn [orb fst].
    + split; [lia|]. apply Forall_app; split; auto.
      constructor; [lia|constructor].
    + destruct (snd (measure_bit (dec (arrive w r)))); cbn [fst].
      * split; [lia|]. apply Forall_app; split; auto.
        constructor; [lia|constructor].
      * split; [lia|assumption].
Qed.

Lemma decode_sized (fuel : nat) (o : Options) (src : list edge) (eof : Z)
      (r : Run) :
  1 <= bits o -> decode fuel o src eof start = Continue r -> sized o r.
Proof.
  intros Hb Hd.
  assert (Hstep : forall w r0 r', sized o r0 -> loop_body o w r0 = Continue r' ->
                                  sized o r').
  { intros w r0 r' Hs H.
    pose proof (loop_body_pass o w r0 (proj1 (proj1 Hs))) as Hp.
    rewrite H in Hp. eapply pass_sized; eauto. }
  apply (decode_continue_inv o eof (fun _ => True) (sized o)
           (fun e r0 r' _ => Hstep _ r0 r') (fun s r0 r' => Hstep _ r0 r')
           fuel src start r (any_edge src)); [|exact Hd].
  repeat split; simpl; try lia. constructor.
Qed.

Lemma app_one_inv (l : list Z) (a b : Z) : l ++ [a] = l ++ [b] -> a = b.
Proof. intro H. apply app_inv_head in H. now inversion H. Qed.

Lemma app_one_neq (l : list Z) (a : Z) : l <> l ++ [a].
Proof.
  intro H. apply (f_equal (@length Z)) in H. rewrite length_app in H.
  simpl in H. lia.
Qed.

(** C7, as amended: with a word width of at least 1, a word annotation put
    by any pass of any run holds between 1 and [bits] annotated bits; the one
    put at a clock edge that did not truncate holds exactly [bits]; the one
    put by the flush at exhaustion holds the [nibblecount] bits collected so
    far and the pending one. *)
Theorem word_annotation_sizes
  (fuel : nat) (o : Options) (src : list edge) (eof : Z) (r : Run)
  (w : wait_result) (k : Z) :
  1 <= bits o ->
  decode fuel o src eof start = Continue r ->
  word_sizes (emitted (run_of (loop_body o w r))) = word_sizes (emitted r) ++ [k] ->
  1 <= k <= bits o
  /\ (forall s clk sda,
         w = Matched s clk sda ->
         snd (measure_bit (set_samplenum s (dec r))) = false ->
         k = bits o)
  /\ (forall s,
         w = Exhausted s -> nibblecount (dec r) > 0 ->
         k = nibblecount (dec r) + 1).
Proof.
  intros Hb Hd Hk.
  destruct (decode_sized _ _ _ _ _ Hb Hd) as ([Hn Hc] & Hlt & _).
  pose proof (loop_body_pass o w r Hn) as Hp.
  inversion Hp as [Hw Hpos Hx|Hw Hz Hpin Hx|clk sda Hpin Ha Hx|clk sda Hpin Ha Hc0 Hx
                   |clk sda Hpin Ha Hc0 Hx]; clear Hp;
    rewrite <- Hx in Hk; cbn [run_of] in Hk; unfold word_sizes in Hk.
  - rewrite scan_flushed, arrive_emitted in Hk. cbn [fst] in Hk.
    apply app_one_inv in Hk. rewrite Hc in Hk. subst k.
    split; [lia|]. split.
    + intros s clk sda Hm. destruct Hw as [s' Hw]. congruence.
    + reflexivity.
  - rewrite arrive_emitted in Hk. exfalso. eapply app_one_neq; eauto.
  - destruct (inactive_edge_keeps (arrive w r)) as (He & _).
    rewrite He, arrive_emitted in Hk. exfalso. eapply app_one_neq; eauto.
  - unfold first_bit in Hk. cbn [emitted] in Hk. rewrite arrive_emitted in Hk.
    exfalso. eapply app_one_neq; eauto.
  - rewrite scan_next_bit, arrive_emitted, arrive_nibblecount in Hk.
    destruct (Z.geb_spec (nibblecount (dec r) + 1) (bits o)) as [Hge|Hge];
      cbn [orb] in Hk.
    + cbn [fst] in Hk. apply app_one_inv in Hk. rewrite Hc in Hk. subst k.
      split; [lia|]. split; [intros; lia|]. intros s Hw Hpos; reflexivity.
    + destruct (snd (measure_bit (dec (arrive w r)))) eqn:Ht; cbn [fst] in Hk.
      * apply app_one_inv in Hk. rewrite Hc in Hk. subst k.
        split; [lia|]. split; [|intros s Hw Hpos; reflexivity].
        intros s clk' sda' Hm Hf. subst w. simpl in Ht. congruence.
      * exfalso. eapply app_one_neq; eauto.
Qed.

Lemma word_annotation_sizes_witness : 1 <= 3 <= bits default_options.
Proof.
  apply (word_annotation_sizes 3 default_options
           (equal_periods 10 10 [1; 0; 1]) 0 after_three (Exhausted 35) 3).
  - discriminate.
  - reflexivity.
  - reflexivity.
Defined.

(** C7 as stated fails: after two edges 10 samples apart in an 8-bit
    decoder, no bit having been truncated, exhaustion puts a word annotation
    that holds 2 bits. *)
Lemma final_word_is_short :
  decode 2 default_options [mk_edge 10 1 1; mk_edge 20 1 0] 30 start
  = Continue after_two
  /\ word_sizes (emitted (run_of (loop_body default_options (Exhausted 30) after_two)))
     = word_sizes (emitted after_two) ++ [2]
  /\ 2 <> bits default_options
  /\ snd (measure_bit (set_samplenum 10 (dec start))) = false
  /\ snd (measure_bit (set_samplenum 20
            (dec (run_of (decode 1 default_options
                            [mk_edge 10 1 1; mk_edge 20 1 0] 30 start))))) = false
  /\ snd (measure_bit (set_samplenum 30 (dec after_two))) = false.
Proof. repeat split; try reflexivity. discriminate. Qed.

(** ** Bound on the word value *)

Lemma lor_bound (a b k : Z) :
  0 <= k -> 0 <= a < 2 ^ k -> 0 <= b < 2 ^ k -> 0 <= Z.lor a b < 2 ^ k.
Proof.
  intros Hk Ha Hb.
  assert (H0 : 0 <= Z.lor a b) by (apply Z.lor_nonneg; lia).
  split; [exact H0|].
  destruct (Z.eq_dec (Z.lor a b) 0) as [E|E]; [rewrite E; lia|].
  apply Z.log2_lt_pow2; [lia|].
  rewrite Z.log2_lor by lia.
  assert (Hl : forall c, 0 <= c < 2 ^ k -> c <> 0 -> Z.log2 c < k)
    by (intros c Hc Hne; apply Z.log2_lt_pow2; lia).
  destruct (Z.eq_dec a 0) as [Ea|Ea]; destruct (Z.eq_dec b 0) as [Eb|Eb].
  - subst. now rewrite Z.lor_0_l in E.
  - subst a. simpl. rewrite Z.max_r by apply Z.log2_nonneg. now apply Hl.
  - subst b. simpl. rewrite Z.max_l by apply Z.log2_nonneg. now apply Hl.
  - apply Z.max_lub_lt; now apply Hl.
Qed.

Lemma folded_bound (l : bool) (n b c : Z) :
  0 <= c -> 0 <= n < 2 ^ c -> is_level b ->
  0 <= folded l n b c < 2 ^ (c + 1).
Proof.
  intros Hc Hn Hb. unfold folded.
  assert (Hp : 2 ^ (c + 1) = 2 * 2 ^ c)
    by (rewrite Z.pow_add_r by lia; change (2 ^ 1) with 2; lia).
  assert (Hpos : 0 < 2 ^ c) by (apply Z.pow_pos_nonneg; lia).
  destruct l; apply lor_bound; try lia.
  - rewrite Z.shiftl_mul_pow2 by lia. change (2 ^ 1) with 2. lia.
  - destruct Hb; subst; lia.
  - rewrite Z.shiftl_mul_pow2 by lia. destruct Hb; subst; lia.
Qed.

Lemma arrive_level (w : wait_result) (r : Run) (clk sda : Z) :
  level_in w -> bounded r -> pins (arrive w r) = Some (clk, sda) -> is_level sda.
Proof.
  intros Hw (_ & _ & _ & Hp) H. destruct w; simpl in *.
  - now inversion H; subst.
  - eauto.
Qed.

Lemma pass_bounded (o : Options) (w : wait_result) (r r' : Run) :
  level_in w -> pass o w r (Continue r') -> bounded r -> bounded r'.
Proof.
  intros Hw Hp Hb. pose proof Hb as (Hn & Hv & Hl & Hpins).
  split; [eapply pass_nibblecount; eauto|].
  inversion Hp as [| |clk sda Hpin Ha Hx|clk sda Hpin Ha Hc Hx|clk sda Hpin Ha Hc Hx];
    subst; clear Hp.
  - destruct (inactive_edge_keeps (arrive w r)) as (_ & Hv' & Hk' & Hl' & Hp').
    rewrite Hv', Hk', Hl', Hp', arrive_nibble, arrive_nibblecount.
    repeat split; try tauto.
    + destruct w; exact Hl.
    + intros c s H. rewrite H in Hpin. inversion Hpin; subst.
      eapply arrive_level; eauto.
  - unfold first_bit. cbn [dec pins nibble nibblecount lastbit].
    rewrite arrive_nibble, arrive_nibblecount.
    repeat split; try tauto.
    + eapply arrive_level; eauto.
    + intros c s H. rewrite H in Hpin. inversion Hpin; subst.
      eapply arrive_level; eauto.
  - unfold next_bit. cbn [dec pins nibble nibblecount lastbit].
    rewrite arrive_folded, arrive_nibblecount.
    repeat split.
    + destruct (_ || _); [lia|]. apply folded_bound; assumption.
    + destruct (_ || _); [simpl; lia|]. apply folded_bound; assumption.
    + eapply arrive_level; eauto.
    + intros c s H. rewrite H in Hpin. inversion Hpin; subst.
      eapply arrive_level; eauto.
Qed.

Lemma loop_body_bounded (o : Options) (w : wait_result) (r r' : Run) :
  level_in w -> bounded r -> loop_body o w r = Continue r' -> bounded r'.
Proof.
  intros Hw Hb H. pose proof (loop_body_pass o w r (proj1 Hb)) as Hp.
  rewrite H in Hp. eapply pass_bounded; eauto.
Qed.

Lemma start_bounded : bounded start.
Proof.
  repeat split; simpl; try lia; [now left|discriminate].
Qed.

(** C10, as amended: when every data level of the capture is 0 or 1, then
    at the head of every pass [nibble < 2 ^ nibblecount], the value the next
    fold gives is below [2 ^ (nibblecount + 1)] under both bit orders, and in
    the run that the flush at exhaustion has ended, where the last fold
    leaves [nibblecount] as it was, [nibble < 2 ^ (nibblecount + 1)]. *)
Theorem word_value_bound (fuel : nat) (o : Options) (src : list edge) (eof : Z) :
  Forall (fun e => is_level (sda_pin e)) src ->
  match decode fuel o src eof start with
  | Continue r =>
      0 <= nibble (dec r) < 2 ^ nibblecount (dec r)
      /\ forall l,
          0 <= folded l (nibble (dec r)) (lastbit (dec r)) (nibblecount (dec r))
          < 2 ^ (nibblecount (dec r) + 1)
  | Raise EOFError r => 0 <= nibble (dec r) < 2 ^ (nibblecount (dec r) + 1)
  | Raise _ r => 0 <= nibble (dec r) < 2 ^ nibblecount (dec r)
  end.
Proof.
  intro Hs.
  pose (E := fun e : edge => is_level (sda_pin e)).
  assert (Hm : forall e r0 r', E e -> bounded r0 ->
                 loop_body o (Matched (at_sample e) (clk_pin e) (sda_pin e)) r0
                 = Continue r' -> bounded r').
  { intros e r0 r' He Hb H. eapply loop_body_bounded; eauto. exact He. }
  assert (Hx : forall s r0 r', bounded r0 ->
                 loop_body o (Exhausted s) r0 = Continue r' -> bounded r').
  { intros s r0 r' Hb H. eapply loop_body_bounded; eauto. exact I. }
  destruct (decode fuel o src eof start) as [r|e r] eqn:Hd.
  - pose proof (decode_continue_inv o eof E bounded Hm Hx fuel src start r
                  Hs start_bounded Hd) as (Hn & Hv & Hl & _).
    split; [exact Hv|]. intro l. now apply folded_bound.
  - destruct (decode_raise_inv o eof E bounded Hm Hx fuel src start e r
                Hs start_bounded Hd) as (w & r0 & (Hn & Hv & Hl & _) & Hr).
    pose proof (loop_body_pass o w r0 Hn) as Hp. rewrite Hr in Hp.
    inversion Hp; subst; clear Hp.
    + unfold flushed. cbn [dec nibble nibblecount set_nibble].
      rewrite arrive_folded, arrive_nibblecount. now apply folded_bound.
    + now rewrite arrive_nibble, arrive_nibblecount.
Qed.

Lemma word_value_bound_witness :
  0 <= nibble (dec after_three) < 2 ^ nibblecount (dec after_three).
Proof.
  assert (H : Forall (fun e => is_level (sda_pin e))
                     (equal_periods 10 10 [1; 0; 1])) by levels.
  pose proof (word_value_bound 3 default_options
                (equal_periods 10 10 [1; 0; 1]) 0 H) as W.
  vm_compute in W. vm_compute. exact (proj1 W).
Defined.

(** C10 as stated fails in the run that the flush has ended: two edges with
    data 1 and 1, then exhaustion, leave [nibble = 3] with [nibblecount = 1]. *)
Lemma flush_leaves_count_behind :
  Forall (fun e => is_level (sda_pin e)) [mk_edge 10 1 1; mk_edge 20 1 1]
  /\ ~ nibble (dec (run_of (decode 3 default_options
                              [mk_edge 10 1 1; mk_edge 20 1 1] 30 start)))
       < 2 ^ nibblecount (dec (run_of (decode 3 default_options
                                         [mk_edge 10 1 1; mk_edge 20 1 1] 30 start))).
Proof.
  split; [levels|]. vm_compute. discriminate.
Qed.

(** ** Equal bit periods *)

Section EqualPeriods.

Variable o : Options.
Variables eof L : Z.
Hypothesis rising_edge : clock_edge o = rising.
Hypothesis period : 1 <= L.

Lemma equal_period_not_truncated (k s : Z) (d : Decoder) :
  1 <= k ->
  bitlencount d = 2 * k - 1 -> bitlensum d = (k - 1) * L ->
  samplenum d - bitstartsample d = L ->
  snd (measure_bit d) = false.
Proof.
  intros Hk Hc Hs Hl.
  destruct (snd (measure_bit d)) eqn:Ht; [exfalso|reflexivity].
  apply measure_bit_truncate in Ht. destruct Ht as [H3 H4].
  unfold average in H4. destruct (Z.eqb_spec (bitlencount d) 0) as [E|E]; [lia|].
  rewrite Hc in H3. rewrite Hc, Hs, Hl in H4.
  assert (Hp : 0 <= (k - 1) * L) by (apply Z.mul_nonneg_nonneg; lia).
  pose proof (ceil_div_ge ((k - 1) * L) (2 * k - 1) ltac:(lia)) as Hg.
  pose proof (ceil_div_nonneg ((k - 1) * L) (2 * k - 1) ltac:(lia) Hp) as Ha.
  set (a := ceil_div ((k - 1) * L) (2 * k - 1)) in *.
  assert (H5 : (k - 1) * (4 * a + 1) <= (k - 1) * L)
    by (apply Z.mul_le_mono_nonneg_l; lia).
  nia.
Qed.

Lemma equal_period_step (k s b : Z) (r : Run) :
  1 <= k -> 0 < s -> estimating L k s r ->
  exists r',
    loop_body o (Matched (s + L) 1 b) r = Continue r'
    /\ estimating L (k + 1) (s + L) r'.
Proof.
  intros Hk Hs (Hn & Hc & Hsum & Hb).
  rewrite loop_body_active by (unfold is_active; now rewrite rising_edge).
  rewrite active_edge_pending by (simpl; lia).
  eexists; split; [reflexivity|].
  set (r0 := arrive (Matched (s + L) 1 b) r).
  assert (Ht : snd (measure_bit (dec r0)) = false).
  { apply (equal_period_not_truncated k s);
      [exact Hk|exact Hc|exact Hsum|].
    change (s + L - bitstartsample (dec r) = L). lia. }
  destruct (measure_bit_end (dec r0)) as [_ Hlen]. rewrite Ht in Hlen.
  unfold estimating, next_bit. fold r0.
  cbn [dec nibblecount bitlencount bitlensum bitstartsample].
  rewrite Hlen, Ht.
  change (bitstartsample (dec r0)) with (bitstartsample (dec r)).
  change (bitlencount (dec r0)) with (bitlencount (dec r)).
  change (bitlensum (dec r0)) with (bitlensum (dec r)).
  change (nibblecount (dec r0)) with (nibblecount (dec r)).
  change (samplenum (dec r0)) with (s + L).
  destruct (Z.eqb_spec (bitstartsample (dec r)) 0) as [E|E]; [lia|].
  cbn [negb]. repeat split; try lia.
  destruct (_ || _); lia.
Qed.

Lemma equal_periods_run (sdas : list Z) :
  forall k s r,
    1 <= k -> 0 < s -> estimating L k s r ->
    exists r',
      decode (length sdas) o (equal_periods (s + L) L sdas) eof r = Continue r'
      /\ estimating L (k + Z.of_nat (length sdas))
                    (s + Z.of_nat (length sdas) * L) r'.
Proof.
  induction sdas as [|b sdas IH]; intros k s r Hk Hs He.
  - exists r. split; [reflexivity|].
    simpl. now replace (k + 0) with k by lia; replace (s + 0) with s by lia.
  - destruct (equal_period_step k s b r Hk Hs He) as (r1 & H1 & He1).
    destruct (IH (k + 1) (s + L) r1) as (r' & H' & He'); [lia|lia|exact He1|].
    exists r'. split.
    + cbn [length decode equal_periods wait mk_edge at_sample clk_pin sda_pin tl].
      now rewrite H1.
    + change (length (b :: sdas)) with (S (length sdas)).
      rewrite Nat2Z.inj_succ.
      replace (k + Z.succ (Z.of_nat (length sdas)))
        with (k + 1 + Z.of_nat (length sdas)) by lia.
      replace (s + Z.succ (Z.of_nat (length sdas)) * L)
        with (s + L + Z.of_nat (length sdas) * L) by lia.
      exact He'.
Qed.

End EqualPeriods.

Lemma half_up (L : Z) : L <= 2 * ((L + 1) / 2) /\ (2 <= L -> (L + 1) / 2 < L).
Proof.
  pose proof (Z.div_mod (L + 1) 2 ltac:(lia)).
  pose proof (Z.mod_pos_bound (L + 1) 2 ltac:(lia)). lia.
Qed.

(** C1, what the code does: after a first active edge at a sample [s > 0]
    and [n] further ones, each [L >= 2] samples after the one before, the
    average that the next active edge will use is [ceil(n * L / (2 * n + 1))],
    the counter having advanced twice per period; it never exceeds
    [(L + 1) / 2], which is below [L], so it does not approach [L]. *)
Theorem average_of_equal_periods
  (o : Options) (s L eof b : Z) (sdas : list Z) :
  clock_edge o = rising -> 0 < s -> 2 <= L ->
  let n := Z.of_nat (length sdas) in
  exists r,
    decode (length (b :: sdas)) o (equal_periods s L (b :: sdas)) eof start
    = Continue r
    /\ bitlensum (dec r) = n * L
    /\ bitlencount (dec r) = 2 * n + 1
    /\ average (dec r) = ceil_div (n * L) (2 * n + 1)
    /\ average (dec r) <= (L + 1) / 2
    /\ (L + 1) / 2 < L.
Proof.
  intros Hr Hs HL n.
  set (r1 := first_bit b (arrive (Matched s 1 b) start)).
  assert (H1 : loop_body o (Matched s 1 b) start = Continue r1).
  { rewrite loop_body_active by (unfold is_active; now rewrite Hr).
    now rewrite active_edge_first by (simpl; lia). }
  destruct (equal_periods_run o eof L Hr ltac:(lia) sdas 1 s r1)
    as (r & Hd & Hn & Hc & Hsum & Hb); [lia|lia| |].
  { repeat split; simpl; lia. }
  exists r. split.
  { cbn [length decode equal_periods wait mk_edge at_sample clk_pin sda_pin tl].
    now rewrite H1. }
  fold n in Hc, Hsum.
  assert (Hc' : bitlencount (dec r) = 2 * n + 1) by lia.
  assert (Hs' : bitlensum (dec r) = n * L) by (rewrite Hsum; f_equal; lia).
  assert (Ha : average (dec r) = ceil_div (n * L) (2 * n + 1)).
  { unfold average. rewrite Hc', Hs'.
    destruct (Z.eqb_spec (2 * n + 1) 0); [lia|reflexivity]. }
  repeat split; auto.
  - rewrite Ha. apply ceil_div_le; [lia|].
    assert (Hq : L <= 2 * ((L + 1) / 2)) by apply half_up.
    assert (Hn0 : 0 <= n) by apply Nat2Z.is_nonneg.
    pose proof (Z.mul_le_mono_nonneg_l _ _ n Hn0 Hq). lia.
  - now apply half_up.
Qed.

Lemma average_of_equal_periods_witness :
  exists r,
    decode 9 default_options
      (equal_periods 10 10 [1; 0; 1; 0; 0; 1; 1; 0; 1]) 0 start = Continue r
    /\ average (dec r) <= 5.
Proof.
  destruct (average_of_equal_periods default_options 10 10 0 1
              [0; 1; 0; 0; 1; 1; 0; 1] eq_refl)
    as (r & Hd & _ & _ & _ & Ha & _); [reflexivity|discriminate|].
  exists r. split; [exact Hd|exact Ha].
Defined.

(** ** The two bit orders *)

(** C2, what the code does: the bits 1,0,1,0,0,1,1,0, sampled in that order
    on eight rising edges and flushed as one 8-bit word, give 0b01100101
    (text "65") under ['msb first'], the option that collects by OR into
    position [nibblecount] and that the decoder describes as "the 1st bit
    received is a high-order bit", and 0b10100110 (text "A6") under
    ['lsb first'], the shift-left-and-OR option. *)
Theorem bit_orders_on_sample_word :
  let src := equal_periods 10 10 [1; 0; 1; 0; 0; 1; 1; 0] in
  let ran b := decode 9 (with_order b) src 90 start in
  (exists r, ran msb_first = Raise EOFError r
             /\ word_bits (nibble (dec r)) = [0; 1; 1; 0; 0; 1; 0; 1]
             /\ last (emitted r) (bit_ann reset 0) = word_ann 10 85 101
             /\ Text.fmt_X 101 = "65"%string)
  /\ (exists r, ran lsb_first = Raise EOFError r
                /\ word_bits (nibble (dec r)) = [1; 0; 1; 0; 0; 1; 1; 0]
                /\ last (emitted r) (bit_ann reset 0) = word_ann 10 85 166
                /\ Text.fmt_X 166 = "A6"%string)
  /\ fold_bit (lsbfirst (with_order msb_first)) 0 1 0 = Some 1
  /\ fold_bit (lsbfirst (with_order lsb_first)) 0 1 0 = Some 1.
Proof.
  cbv zeta. split; [|split].
  - exists (run_of (decode 9 (with_order msb_first)
                      (equal_periods 10 10 [1; 0; 1; 0; 0; 1; 1; 0]) 90 start)).
    conj_compute.
  - exists (run_of (decode 9 (with_order lsb_first)
                      (equal_periods 10 10 [1; 0; 1; 0; 0; 1; 1; 0]) 90 start)).
    conj_compute.
  - split; reflexivity.
Qed.

(** ** Exhaustion with no bit collected *)

Lemma idling_forever (fuel : nat) :
  decode fuel default_options [] 20 idling = Continue idling.
Proof.
  induction fuel as [|fuel IH]; [reflexivity|].
  cbn [decode wait tl].
  replace (loop_body default_options (Exhausted 20) idling) with (Continue idling)
    by (vm_compute; reflexivity).
  exact IH.
Qed.

(** C3, what the code does: when [wait] raises while [nibblecount = 0] the
    [except] block ends without raising and the pass goes on with the pins
    of the last edge.  After a single rising edge the pass in which the
    samples ran out puts a bit annotation and collects the bit, and the next
    pass flushes the same bit again in a two-bit word "3"; after a rising and
    a falling edge the loop never ends. *)
Theorem exhaustion_with_no_bit_collected :
  decode 1 default_options [mk_edge 10 1 1] 20 start = Continue after_one
  /\ nibblecount (dec after_one) = 0
  /\ (exists r,
        loop_body default_options (Exhausted 20) after_one = Continue r
        /\ emitted r = [ bit_ann (dec after_one) 20 ]
        /\ nibblecount (dec r) = 1 /\ nibble (dec r) = 1
        /\ bitlencount (dec r) = 3 /\ bitstartsample (dec r) = 20)
  /\ (exists r,
        decode 3 default_options [mk_edge 10 1 1] 20 start = Raise EOFError r
        /\ emitted r = [ bit_ann (dec after_one) 20;
                         {| ss := 20; es := 24; output_id := OUTPUT_ANN;
                            data := (0, "1"%string) |};
                         {| ss := 10; es := 24; output_id := OUTPUT_ANN;
                            data := (1, "3"%string) |} ])
  /\ (forall fuel, exists r,
        decode fuel default_options [mk_edge 10 1 1; mk_edge 15 0 1] 20 start
        = Continue r /\ emitted r = []).
Proof.
  split; [vm_compute; reflexivity|]. split; [reflexivity|].
  split.
  { exists (run_of (loop_body default_options (Exhausted 20) after_one)).
    conj_compute. }
  split.
  { exists (run_of (decode 3 default_options [mk_edge 10 1 1] 20 start)).
    conj_compute. }
  intro fuel.
  destruct fuel as [|[|[|fuel]]];
    [exists start; conj_compute
    |exists (run_of (decode 1 default_options
                       [mk_edge 10 1 1; mk_edge 15 0 1] 20 start));
     conj_compute
    |exists (run_of (decode 2 default_options
                       [mk_edge 10 1 1; mk_edge 15 0 1] 20 start));
     conj_compute
    |].
  exists idling. split; [|reflexivity].
  change (S (S (S fuel))) with (3 + fuel)%nat.
  rewrite (decode_split 3 default_options
             [mk_edge 10 1 1; mk_edge 15 0 1] 20 start idling);
    [|vm_compute; reflexivity].
  apply idling_forever.
Qed.

(** * Further properties of [decode] *)

(** ** How a run ends *)

Lemma matched_continues (o : Options) (s clk sda : Z) (r : Run) :
  0 <= nibblecount (dec r) ->
  exists r',
    loop_body o (Matched s clk sda) r = Continue r'
    /\ 0 <= nibblecount (dec r')
    /\ pins r' = Some (clk, sda).
Proof.
  intro Hn. pose proof (loop_body_pass o (Matched s clk sda) r Hn) as Hp.
  remember (loop_body o (Matched s clk sda) r) as x eqn:Ex.
  destruct Hp as [Hw Hk|Hw Hk Hpin|c d Hpin Ha|c d Hpin Ha Hc|c d Hpin Ha Hc].
  - destruct Hw as [s' Hw]. discriminate.
  - destruct Hw as [s' Hw]. discriminate.
  - eexists; split; [reflexivity|]. split.
    + eapply pass_nibblecount; [|exact Hn]. eapply pass_inactive; eauto.
    + now destruct (inactive_edge_keeps (arrive (Matched s clk sda) r))
        as (_ & _ & _ & _ & ->).
  - eexists; split; [reflexivity|]. split; [exact Hn|reflexivity].
  - eexists; split; [reflexivity|]. split.
    + eapply pass_nibblecount; [|exact Hn]. eapply pass_pending; eauto.
    + reflexivity.
Qed.

(** Every edge of the capture is taken without an exception. *)
Lemma decode_feed (o : Options) (eof : Z) (src : list edge) :
  forall r,
    0 <= nibblecount (dec r) ->
    exists r',
      decode (length src) o src eof r = Continue r'
      /\ 0 <= nibblecount (dec r')
      /\ (src <> [] ->
          pins r' = Some (clk_pin (last src (mk_edge 0 0 0)),
                          sda_pin (last src (mk_edge 0 0 0)))).
Proof.
  induction src as [|e src IH]; intros r Hn.
  - exists r. repeat split; auto. congruence.
  - destruct (matched_continues o (at_sample e) (clk_pin e) (sda_pin e) r Hn)
      as (r1 & H1 & Hn1 & Hp1).
    destruct (IH r1 Hn1) as (r' & H' & Hn' & Hp').
    exists r'. cbn [length decode wait tl]. rewrite H1.
    split; [exact H'|]. split; [exact Hn'|]. intros _.
    destruct src as [|e' src'].
    + simpl in H'. inversion H'; subst. exact Hp1.
    + rewrite Hp' by discriminate. reflexivity.
Qed.

Lemma exhausted_pins_kept (o : Options) (s : Z) (r r' : Run) :
  0 <= nibblecount (dec r) ->
  loop_body o (Exhausted s) r = Continue r' ->
  pins r' = pins r /\ pins r <> None.
Proof.
  intros Hn H. pose proof (loop_body_pass o (Exhausted s) r Hn) as Hp.
  rewrite H in Hp. remember (Continue r') as x eqn:Ex.
  destruct Hp as [Hw Hk|Hw Hk Hpin|c d Hpin Ha|c d Hpin Ha Hc|c d Hpin Ha Hc];
    try discriminate; inversion Ex; subst r';
    change (pins (arrive (Exhausted s) r)) with (pins r) in Hpin;
    (split; [|rewrite Hpin; discriminate]).
  - exact (proj2 (proj2 (proj2 (proj2
             (inactive_edge_keeps (arrive (Exhausted s) r)))))).
  - reflexivity.
  - reflexivity.
Qed.

(** Once some edge has been taken, the loop can only be left by the flush of
    the [except] block, and not before the samples have run out. *)
Lemma decode_raise_after_edge (o : Options) (eof : Z) (fuel : nat) :
  forall src r e r',
    0 <= nibblecount (dec r) -> pins r <> None ->
    decode fuel o src eof r = Raise e r' ->
    (length src < fuel)%nat /\ e = EOFError.
Proof.
  induction fuel as [|fuel IH]; intros src r e r' Hn Hp H; simpl in H.
  - discriminate.
  - destruct src as [|ed src]; cbn [wait tl] in H.
    + destruct (loop_body o (Exhausted eof) r) as [r1|e1 r1] eqn:E1.
      * destruct (exhausted_pins_kept o eof r r1 Hn E1) as [Hk _].
        assert (Hp1 : pins r1 <> None) by now rewrite Hk.
        destruct (IH [] r1 e r' (loop_body_nibblecount o _ r r1 Hn E1) Hp1 H)
          as [Hl He].
        split; [simpl in *; lia|exact He].
      * inversion H; subst. split; [simpl; lia|].
        pose proof (loop_body_pass o (Exhausted eof) r Hn) as Hq.
        rewrite E1 in Hq. remember (Raise e r') as x eqn:Ex.
        destruct Hq; try discriminate; inversion Ex; subst;
          [reflexivity|contradiction].
    + destruct (matched_continues o (at_sample ed) (clk_pin ed) (sda_pin ed) r Hn)
        as (r1 & H1 & Hn1 & Hp1).
      rewrite H1 in H.
      assert (Hq : pins r1 <> None) by (rewrite Hp1; discriminate).
      destruct (IH src r1 e r' Hn1 Hq H) as [Hl He].
      split; [simpl; lia|exact He].
Qed.

(** X1: [decode] is left only after every edge of the capture has been
    taken, and then either with [EOFError], or, when the capture holds no
    edge at all, with [UnboundLocalError] on the first pass and nothing put. *)
Theorem decode_leaves_at_exhaustion
  (fuel : nat) (o : Options) (src : list edge) (eof : Z) :
  match decode fuel o src eof start with
  | Continue _ => True
  | Raise e r =>
      (length src < fuel)%nat
      /\ ((e = EOFError /\ src <> [])
          \/ (e = UnboundLocalError /\ src = [] /\ emitted r = []))
  end.
Proof.
  destruct (decode fuel o src eof start) as [r|e r] eqn:Hd; [exact I|].
  destruct fuel as [|fuel]; [discriminate|].
  destruct src as [|ed src].
  - simpl in Hd. inversion Hd; subst. split; [simpl; lia|].
    right. repeat split.
  - cbn [decode wait tl] in Hd.
    destruct (matched_continues o (at_sample ed) (clk_pin ed) (sda_pin ed) start)
      as (r1 & H1 & Hn1 & Hp1); [simpl; lia|].
    rewrite H1 in Hd.
    assert (Hq : pins r1 <> None) by (rewrite Hp1; discriminate).
    destruct (decode_raise_after_edge o eof fuel src r1 e r Hn1 Hq Hd) as [Hl He].
    split; [simpl; lia|]. left. split; [exact He|discriminate].
Qed.

(** X2: if a bit has been collected ([nibblecount > 0]) when the last edge
    of the capture has been taken, the run ends on the very next pass with
    [EOFError], having put after everything else the annotation of the
    pending bit and the annotation of the word. *)
Theorem pending_word_ends_run
  (o : Options) (src : list edge) (eof : Z) (r : Run) (fuel : nat) :
  decode (length src) o src eof start = Continue r ->
  nibblecount (dec r) > 0 ->
  (length src < fuel)%nat ->
  decode fuel o src eof start
  = Raise EOFError (flushed (lsbfirst o) (arrive (Exhausted eof) r))
  /\ emitted (flushed (lsbfirst o) (arrive (Exhausted eof) r))
     = emitted r ++
       [ bit_ann (dec r) (bitstartsample (dec r) + average (dec r));
         word_ann (nibblestartsample (dec r))
           (bitstartsample (dec r) + average (dec r))
           (folded (lsbfirst o) (nibble (dec r)) (lastbit (dec r))
              (nibblecount (dec r))) ].
Proof.
  intros Hd Hn Hf. split; [|reflexivity].
  replace fuel with (length src + S (fuel - length src - 1))%nat by lia.
  rewrite (decode_split _ _ _ _ _ _ Hd), skipn_all.
  cbn [decode wait]. unfold loop_body.
  now rewrite on_exhausted_raise by exact Hn.
Qed.

Lemma pending_word_ends_run_witness :
  decode 5 default_options (equal_periods 10 10 [1; 0; 1]) 35 start
  = Raise EOFError
      (flushed (lsbfirst default_options) (arrive (Exhausted 35) after_three)).
Proof.
  apply (pending_word_ends_run default_options (equal_periods 10 10 [1; 0; 1])
           35 after_three 5).
  - vm_compute. reflexivity.
  - reflexivity.
  - simpl. lia.
Defined.

(** X3: if no bit is collected ([nibblecount = 0]) when the samples run out
    and the last edge of the capture was an inactive one, [decode] never
    returns: however many more passes are made, the loop is still running,
    nothing more has been put and no bit has been collected. *)
Theorem idle_clock_never_ends
  (o : Options) (src : list edge) (e : edge) (eof : Z) (r : Run) (passes : nat) :
  is_active (clock_edge o) (clk_pin e) = false ->
  decode (length (src ++ [e])) o (src ++ [e]) eof start = Continue r ->
  nibblecount (dec r) = 0 ->
  exists r',
    decode (length (src ++ [e]) + passes) o (src ++ [e]) eof start = Continue r'
    /\ emitted r' = emitted r
    /\ nibblecount (dec r') = 0.
Proof.
  intros Ha Hd Hn.
  rewrite (decode_split _ _ _ _ _ _ Hd), skipn_all.
  assert (Hp : pins r = Some (clk_pin e, sda_pin e)).
  { destruct (decode_feed o eof (src ++ [e]) start) as (r0 & H0 & _ & Hp0);
      [simpl; lia|].
    rewrite Hd in H0. inversion H0; subst r0.
    rewrite Hp0 by (destruct src; discriminate). now rewrite last_last. }
  clear Hd. revert r Hn Hp.
  induction passes as [|passes IH]; intros r Hn Hp.
  - exists r. repeat split; auto.
  - cbn [decode wait tl]. unfold loop_body.
    rewrite on_exhausted_continue by (simpl; lia).
    set (r0 := {| dec := set_samplenum eof (dec r); pins := pins r;
                  emitted := emitted r |}).
    assert (H0 : on_edge o r0 = Continue (inactive_edge r0)).
    { unfold on_edge.
      replace (pins r0) with (Some (clk_pin e, sda_pin e)) by (symmetry; exact Hp).
      now rewrite Ha. }
    rewrite H0.
    destruct (inactive_edge_keeps r0) as (He & _ & Hk & _ & Hq).
    destruct (IH (inactive_edge r0)) as (r' & H' & He' & Hn').
    + rewrite Hk. exact Hn.
    + rewrite Hq. exact Hp.
    + exists r'. split; [exact H'|]. split; [|exact Hn'].
      rewrite He', He. reflexivity.
Qed.

Lemma idle_clock_never_ends_witness :
  exists r',
    decode (2 + 40) default_options [mk_edge 10 1 1; mk_edge 15 0 1] 20 start
    = Continue r'
    /\ emitted r' = [] /\ nibblecount (dec r') = 0.
Proof.
  apply (idle_clock_never_ends default_options [mk_edge 10 1 1] (mk_edge 15 0 1)
           20 (run_of (decode 2 default_options
                         [mk_edge 10 1 1; mk_edge 15 0 1] 20 start)) 40).
  - reflexivity.
  - vm_compute. reflexivity.
  - reflexivity.
Defined.

(** ** Spans of the annotations *)

Lemma average_nonneg (d : Decoder) :
  0 <= bitlencount d -> 0 <= bitlensum d -> 0 <= average d.
Proof.
  intros Hc Hs. unfold average.
  destruct (Z.eqb_spec (bitlencount d) 0); [lia|].
  apply ceil_div_nonneg; lia.
Qed.

Lemma measure_bit_span (d : Decoder) :
  bitstartsample d <= samplenum d -> 0 <= average d ->
  bitstartsample d <= fst (fst (measure_bit d)) <= samplenum d
  /\ 0 <= snd (fst (measure_bit d)).
Proof.
  intros Hb Ha. destruct (measure_bit_end d) as [He Hl]. rewrite He, Hl.
  destruct (snd (measure_bit d)) eqn:Ht; [|lia].
  apply measure_bit_truncate in Ht. lia.
Qed.

Lemma non_overlapping_snoc (a : list put_call) (q : put_call) :
  non_overlapping a ->
  (is_bit_ann q = true -> Forall (fun p => es p <= ss q) a) ->
  non_overlapping (a ++ [q]).
Proof.
  induction a as [|p a IH]; intros Ha Hq; simpl.
  - split; constructor.
  - destruct Ha as [Hp Ha]. split.
    + apply Forall_app; split; [exact Hp|].
      constructor; [|constructor]. intro Hb.
      specialize (Hq Hb). now inversion Hq.
    + apply IH; [exact Ha|]. intro Hb. specialize (Hq Hb). now inversion Hq.
Qed.

Lemma Forall_weaken_end (out : list put_call) (b b' : Z) :
  b <= b' ->
  Forall (fun p => ss p <= es p /\ es p <= b) out ->
  Forall (fun p => ss p <= es p /\ es p <= b') out.
Proof.
  intros Hb H. eapply Forall_impl; [|exact H]. simpl. intros p [? ?]. lia.
Qed.

Lemma timed_well_spanned (r : Run) : timed r -> well_spanned (emitted r).
Proof.
  intros (_ & _ & _ & _ & _ & _ & Hf & Ho). split; [|exact Ho].
  eapply Forall_impl; [|exact Hf]. simpl. tauto.
Qed.

(** Putting a bit annotation that starts at [bitstartsample], then maybe a
    word annotation, keeps a trace in order. *)
Lemma put_bit_then_word (out : list put_call) (d : Decoder) (b e s v : Z)
      (flush : bool) :
  Forall (fun p => ss p <= es p /\ es p <= bitstartsample d) out ->
  non_overlapping out ->
  bitstartsample d <= e <= b -> s <= bitstartsample d ->
  Forall (fun p => ss p <= es p /\ es p <= b)
         (out ++ bit_ann d e :: (if flush then [word_ann s e v] else []))
  /\ non_overlapping
       (out ++ bit_ann d e :: (if flush then [word_ann s e v] else [])).
Proof.
  intros Hf Ho He Hs.
  assert (H1 : non_overlapping (out ++ [bit_ann d e])).
  { apply non_overlapping_snoc; [exact Ho|]. intros _.
    eapply Forall_impl; [|exact Hf]. simpl. tauto. }
  assert (Hf' : Forall (fun p => ss p <= es p /\ es p <= b) out).
  { apply (Forall_weaken_end out (bitstartsample d)); [lia|exact Hf]. }
  destruct flush.
  - change (out ++ [bit_ann d e; word_ann s e v])
      with (out ++ [bit_ann d e] ++ [word_ann s e v]).
    rewrite app_assoc. split.
    + apply Forall_app; split; [apply Forall_app; split; [exact Hf'|]|];
        (constructor; [simpl; lia|constructor]).
    + apply non_overlapping_snoc; [exact H1|]. discriminate.
  - split; [|exact H1].
    apply Forall_app; split; [exact Hf'|].
    constructor; [simpl; lia|constructor].
Qed.

Lemma pass_timed (o : Options) (w : wait_result) (r : Run) (x : outcome) :
  timed r -> samplenum (dec r) <= sample_of w -> pass o w r x ->
  match x with
  | Continue r' =>
      timed r' /\ samplenum (dec r') = sample_of w
      /\ bitlencount (dec r) <= bitlencount (dec r')
      /\ bitlensum (dec r) <= bitlensum (dec r')
      /\ lastsamplenum (dec r) <= lastsamplenum (dec r')
      /\ bitstartsample (dec r) <= bitstartsample (dec r')
  | Raise _ r' => well_spanned (emitted r')
  end.
Proof.
  intros Ht Hs Hp.
  pose proof Ht as (Hn & Hc & Hsum & H0 & Hl & [Hnss Hbss] & Hf & Ho).
  assert (Hav : 0 <= average (dec (arrive w r)))
    by (apply average_nonneg; destruct w; assumption).
  assert (Hd : bitstartsample (dec (arrive w r)) = bitstartsample (dec r)
               /\ samplenum (dec (arrive w r)) = sample_of w
               /\ nibblestartsample (dec (arrive w r)) = nibblestartsample (dec r)
               /\ bitlencount (dec (arrive w r)) = bitlencount (dec r)
               /\ bitlensum (dec (arrive w r)) = bitlensum (dec r)
               /\ lastsamplenum (dec (arrive w r)) = lastsamplenum (dec r))
    by (destruct w; repeat split).
  destruct Hd as (Db & Ds & Dn & Dc & Dsum & Dl).
  destruct Hp as [Hw Hk|Hw Hk Hpin|c d Hpin Ha|c d Hpin Ha Hc0|c d Hpin Ha Hc0].
  - (* flush at exhaustion *)
    unfold flushed. cbn [emitted]. rewrite arrive_emitted.
    destruct (put_bit_then_word (emitted r) (dec (arrive w r))
                (bitstartsample (dec (arrive w r)) + average (dec (arrive w r)))
                (bitstartsample (dec (arrive w r)) + average (dec (arrive w r)))
                (nibblestartsample (dec (arrive w r)))
                (folded (lsbfirst o) (nibble (dec (arrive w r)))
                   (lastbit (dec (arrive w r))) (nibblecount (dec (arrive w r))))
                true) as [Hf' Ho']; try (rewrite ?Db, ?Dn; auto; lia).
    split; [|exact Ho'].
    eapply Forall_impl; [|exact Hf']. simpl. tauto.
  - rewrite arrive_emitted. now apply timed_well_spanned.
  - (* inactive edge *)
    unfold timed, inactive_edge. rewrite Dl.
    destruct (Z.eqb_spec (lastsamplenum (dec r)) 0) as [E|E].
    + cbn [dec emitted samplenum lastsamplenum bitstartsample bitlencount
             bitlensum nibblecount nibblestartsample].
      rewrite ?arrive_emitted, ?arrive_nibblecount, ?Ds, ?Dc, ?Dsum, ?Dl, ?Db, ?Dn.
      conjs; try lia; auto.
      apply (Forall_weaken_end _ (bitstartsample (dec r))); [lia|exact Hf].
    + rewrite ?arrive_emitted, ?arrive_nibblecount, ?Ds, ?Dc, ?Dsum, ?Dl, ?Db, ?Dn.
      conjs; try lia; auto.
  - (* first active edge *)
    unfold timed, first_bit.
    cbn [dec emitted samplenum lastsamplenum bitstartsample bitlencount
           bitlensum nibblecount nibblestartsample].
    rewrite ?arrive_emitted, ?arrive_nibblecount, ?Ds, ?Dc, ?Dsum, ?Dl, ?Db, ?Dn.
    conjs; try lia; auto.
    apply (Forall_weaken_end _ (bitstartsample (dec r))); [lia|exact Hf].
  - (* active edge with a pending bit *)
    destruct (measure_bit_span (dec (arrive w r))) as [He Hlen];
      [rewrite Db, Ds; lia|exact Hav|].
    rewrite Db, Ds in He.
    unfold timed, next_bit.
    cbn [dec emitted samplenum lastsamplenum bitstartsample bitlencount
           bitlensum nibblecount nibblestartsample].
    rewrite ?arrive_emitted, ?arrive_nibblecount, ?Ds, ?Dc, ?Dsum, ?Dl, ?Db, ?Dn.
    set (flush := (nibblecount (dec r) + 1 >=? bits o)
                  || snd (measure_bit (dec (arrive w r)))).
    destruct (put_bit_then_word (emitted r) (dec (arrive w r)) (sample_of w)
                (fst (fst (measure_bit (dec (arrive w r)))))
                (if nibblestartsample (dec r) =? 0 then bitstartsample (dec r)
                 else nibblestartsample (dec r))
                (folded (lsbfirst o) (nibble (dec (arrive w r)))
                   (lastbit (dec (arrive w r))) (nibblecount (dec (arrive w r))))
                flush) as [Hf' Ho'];
      try (rewrite ?Db; auto; lia).
    { rewrite Db. destruct (nibblestartsample (dec r) =? 0); lia. }
    rewrite ?arrive_nibblecount in Hf', Ho'.
    split; [|split; [reflexivity|]].
    + conjs; try lia; try assumption.
      * destruct flush; lia.
      * destruct (negb (bitstartsample (dec r) =? 0)); lia.
      * destruct (negb (bitstartsample (dec r) =? 0)); lia.
      * destruct flush; [lia|].
        destruct (nibblestartsample (dec r) =? 0); lia.
    + conjs; try lia.
      * destruct (negb (bitstartsample (dec r) =? 0)); lia.
      * destruct (negb (bitstartsample (dec r) =? 0)); lia.
Qed.

Lemma decode_timed (o : Options) (eof : Z) (fuel : nat) :
  forall src r,
    timed r -> ascending (samplenum (dec r)) src eof ->
    match decode fuel o src eof r with
    | Continue r' =>
        timed r' /\ ascending (samplenum (dec r')) (skipn fuel src) eof
    | Raise _ r' => well_spanned (emitted r')
    end.
Proof.
  induction fuel as [|fuel IH]; intros src r Ht Ha.
  - simpl. split; assumption.
  - cbn [decode].
    assert (Hs : samplenum (dec r) <= sample_of (wait src eof))
      by (destruct src; simpl in *; lia).
    pose proof (pass_timed o (wait src eof) r _ Ht Hs
                  (loop_body_pass o (wait src eof) r (proj1 Ht))) as Hp.
    destruct (loop_body o (wait src eof) r) as [r1|e r1]; [|exact Hp].
    destruct Hp as (Ht1 & Hs1 & _).
    assert (Ha1 : ascending (samplenum (dec r1)) (tl src) eof).
    { rewrite Hs1. destruct src; simpl in *; [lia|tauto]. }
    specialize (IH (tl src) r1 Ht1 Ha1).
    destruct (decode fuel o (tl src) eof r1); [|exact IH].
    destruct src; simpl; [now rewrite skipn_nil in IH|exact IH].
Qed.

Lemma start_timed : timed start.
Proof. unfold timed. simpl. repeat split; try lia; constructor. Qed.

Lemma decode_well_spanned (fuel : nat) (o : Options) (src : list edge) (eof : Z) :
  ascending 0 src eof ->
  well_spanned (emitted (run_of (decode fuel o src eof start))).
Proof.
  intro Ha. pose proof (decode_timed o eof fuel src start start_timed Ha) as H.
  destruct (decode fuel o src eof start); simpl; [|exact H].
  apply timed_well_spanned, H.
Qed.

(** X4: when the sample numbers of the capture start at 0 or later and
    never go back, every annotation put in any run ends at or after the
    sample where it starts. *)
Theorem annotations_end_after_start
  (fuel : nat) (o : Options) (src : list edge) (eof : Z) :
  ascending 0 src eof ->
  Forall (fun p => ss p <= es p)
         (emitted (run_of (decode fuel o src eof start))).
Proof. intro Ha. apply (decode_well_spanned fuel o src eof Ha). Qed.

Lemma annotations_end_after_start_witness :
  Forall (fun p => ss p <= es p)
         (emitted (run_of (decode 5 default_options
                             (equal_periods 10 10 [1; 0; 1]) 35 start))).
Proof.
  apply (annotations_end_after_start 5 default_options
           (equal_periods 10 10 [1; 0; 1]) 35).
  simpl. lia.
Defined.

Lemma non_overlapping_nth (out : list put_call) :
  non_overlapping out ->
  forall i j p q,
    (i < j)%nat -> nth_error out i = Some p -> nth_error out j = Some q ->
    is_bit_ann q = true -> es p <= ss q.
Proof.
  induction out as [|a out IH]; intros Hno i j p q Hij Hi Hj Hq.
  - destruct i; discriminate.
  - destruct Hno as [Ha Ho]. destruct j as [|j]; [lia|]. simpl in Hj. destruct i as [|i].
    + simpl in Hi. inversion Hi; subst a.
      rewrite Forall_forall in Ha. apply Ha; [|exact Hq].
      eapply nth_error_In; eauto.
    + simpl in Hi. apply (IH Ho i j); auto. lia.
Qed.

(** X5: under the same condition on the sample numbers, a bit annotation
    never starts before the end of an annotation put earlier: the bit
    annotations of a run follow one another without overlap. *)
Theorem bit_annotations_do_not_overlap
  (fuel : nat) (o : Options) (src : list edge) (eof : Z)
  (i j : nat) (p q : put_call) :
  ascending 0 src eof ->
  (i < j)%nat ->
  nth_error (emitted (run_of (decode fuel o src eof start))) i = Some p ->
  nth_error (emitted (run_of (decode fuel o src eof start))) j = Some q ->
  is_bit_ann q = true ->
  es p <= ss q.
Proof.
  intros Ha. apply non_overlapping_nth.
  apply (decode_well_spanned fuel o src eof Ha).
Qed.

Lemma bit_annotations_do_not_overlap_witness :
  es {| ss := 10; es := 20; output_id := OUTPUT_ANN; data := (0, "1"%string) |}
  <= ss {| ss := 20; es := 30; output_id := OUTPUT_ANN; data := (0, "0"%string) |}.
Proof.
  apply (bit_annotations_do_not_overlap 5 default_options
           (equal_periods 10 10 [1; 0; 1]) 35 0 1
           {| ss := 10; es := 20; output_id := OUTPUT_ANN; data := (0, "1"%string) |}
           {| ss := 20; es := 30; output_id := OUTPUT_ANN; data := (0, "0"%string) |}).
  - simpl. lia.
  - lia.
  - vm_compute. reflexivity.
  - vm_compute. reflexivity.
  - reflexivity.
Defined.

(** X6: under the same condition, from one pass of a run to the next the
    period counter, the period sum, the sample of the last active edge and
    the start of the pending bit never decrease, and the running average is
    never negative. *)
Theorem estimator_never_decreases
  (fuel : nat) (o : Options) (src : list edge) (eof : Z) (r r' : Run) :
  ascending 0 src eof ->
  decode fuel o src eof start = Continue r ->
  decode (S fuel) o src eof start = Continue r' ->
  bitlencount (dec r) <= bitlencount (dec r')
  /\ bitlensum (dec r) <= bitlensum (dec r')
  /\ lastsamplenum (dec r) <= lastsamplenum (dec r')
  /\ bitstartsample (dec r) <= bitstartsample (dec r')
  /\ 0 <= average (dec r').
Proof.
  intros Ha Hd Hd'.
  pose proof (decode_timed o eof fuel src start start_timed Ha) as Ht.
  rewrite Hd in Ht. destruct Ht as [Ht Hasc].
  replace (S fuel) with (fuel + 1)%nat in Hd' by lia.
  rewrite (decode_split _ _ _ _ _ _ Hd) in Hd'. cbn [decode] in Hd'.
  set (w := wait (skipn fuel src) eof) in *.
  assert (Hs : samplenum (dec r) <= sample_of w)
    by (subst w; destruct (skipn fuel src); simpl in *; lia).
  pose proof (pass_timed o w r _ Ht Hs (loop_body_pass o w r (proj1 Ht))) as Hp.
  destruct (loop_body o w r) as [r1|e r1]; [|discriminate].
  inversion Hd'; subst r1.
  destruct Hp as (Ht' & _ & H1 & H2 & H3 & H4).
  repeat split; auto.
  apply average_nonneg; apply Ht'.
Qed.

Lemma estimator_never_decreases_witness :
  bitlencount (dec after_two) <= bitlencount (dec after_three).
Proof.
  apply (estimator_never_decreases 2 default_options
           (equal_periods 10 10 [1; 0; 1]) 35 after_two after_three).
  - simpl. lia.
  - vm_compute. reflexivity.
  - vm_compute. reflexivity.
Defined.

(** ** Texts *)

Lemma digit_value_char (d : Z) : 0 <= d < 16 -> digit_value (Text.digit_char d) = d.
Proof.
  intro H.
  assert (C : d = 0 \/ d = 1 \/ d = 2 \/ d = 3 \/ d = 4 \/ d = 5 \/ d = 6 \/ d = 7
              \/ d = 8 \/ d = 9 \/ d = 10 \/ d = 11 \/ d = 12 \/ d = 13 \/ d = 14
              \/ d = 15) by lia.
  repeat (destruct C as [->|C]; [reflexivity|]). subst d. reflexivity.
Qed.

Lemma digits_aux_value (base : Z) (fuel : nat) :
  2 <= base <= 16 ->
  forall n acc,
    0 <= n < 2 ^ Z.of_nat fuel ->
    text_value_from base 0 (Text.digits_aux base fuel n acc)
    = text_value_from base n acc.
Proof.
  intro Hb. induction fuel as [|fuel IH]; intros n acc Hn.
  - simpl in *. now replace n with 0 by lia.
  - cbn [Text.digits_aux].
    pose proof (Z.div_mod n base ltac:(lia)) as Hdm.
    pose proof (Z.mod_pos_bound n base ltac:(lia)) as Hm.
    assert (Hd : digit_value (Text.digit_char (n mod base)) = n mod base)
      by (apply digit_value_char; lia).
    destruct (Z.eqb_spec (n / base) 0) as [E|E].
    + cbn [text_value_from]. rewrite Hd. f_equal. rewrite E in Hdm. lia.
    + rewrite IH.
      * cbn [text_value_from]. rewrite Hd. f_equal. lia.
      * rewrite Nat2Z.inj_succ, Z.pow_succ_r in Hn by lia.
        split; [apply Z.div_pos; lia|].
        apply Z.div_lt_upper_bound; [lia|].
        assert (0 < 2 ^ Z.of_nat fuel) by (apply Z.pow_pos_nonneg; lia). nia.
Qed.

Lemma render_value (base n : Z) :
  2 <= base <= 16 -> 0 <= n -> text_value base (Text.render base n) = n.
Proof.
  intros Hb Hn. unfold text_value, Text.render, Text.digits.
  destruct (Z.ltb_spec n 0); [lia|].
  rewrite digits_aux_value; [reflexivity|exact Hb|].
  split; [exact Hn|].
  destruct (Z.eq_dec n 0) as [->|Hne]; [reflexivity|].
  rewrite Nat2Z.inj_succ, Z2Nat.id by apply Z.log2_nonneg.
  apply Z.log2_spec. lia.
Qed.

(** X7: the text put for a value that is not negative reads back as that
    value, in hexadecimal for a word ("%0.1X") and in decimal for a bit
    ([str]): the text of a word shows the whole value, however many digits
    that takes. *)
Theorem texts_read_back (n : Z) :
  0 <= n ->
  text_value 16 (Text.fmt_X n) = n /\ text_value 10 (Text.str n) = n.
Proof.
  intro Hn. split; apply render_value; lia.
Qed.

Lemma texts_read_back_witness :
  text_value 16 (Text.fmt_X 166) = 166 /\ text_value 10 (Text.str 166) = 166.
Proof. apply (texts_read_back 166). lia. Defined.

(** ** Bits and words of a trace *)

Lemma lor_double_level (n b : Z) :
  is_level b -> Z.lor (Z.shiftl n 1) b = 2 * n + b.
Proof.
  intro Hb. rewrite Z.shiftl_mul_pow2 by lia. change (2 ^ 1) with 2.
  destruct Hb as [->| ->]; [rewrite Z.lor_0_r; lia|].
  assert (Hl : Z.land (n * 2) 1 = 0).
  { change 1 with (Z.ones 1) at 1. rewrite Z.land_ones by lia.
    change (2 ^ 1) with 2. apply Z.mod_mul. lia. }
  rewrite <- Z.lxor_lor by exact Hl.
  rewrite <- Z.add_nocarry_lxor by exact Hl. lia.
Qed.

Lemma lor_above (n b k : Z) :
  0 <= k -> 0 <= n < 2 ^ k -> is_level b ->
  Z.lor n (Z.shiftl b k) = n + b * 2 ^ k.
Proof.
  intros Hk Hn Hb. rewrite Z.shiftl_mul_pow2 by lia.
  destruct Hb as [->| ->]; [rewrite Z.mul_0_l, Z.lor_0_r; lia|].
  rewrite Z.mul_1_l.
  assert (Hl : Z.land n (2 ^ k) = 0).
  { apply Z.bits_inj'. intros i Hi.
    rewrite Z.land_spec, Z.bits_0, Z.pow2_bits_eqb by lia.
    destruct (Z.eqb_spec k i) as [->|Hne]; [|apply andb_false_r].
    rewrite andb_true_r.
    destruct (Z.eq_dec n 0) as [->|Hn0]; [apply Z.bits_0|].
    apply Z.bits_above_log2; [lia|]. apply Z.log2_lt_pow2; lia. }
  rewrite <- Z.lxor_lor by exact Hl.
  now rewrite <- Z.add_nocarry_lxor by exact Hl.
Qed.

Lemma first_low_snoc (bs : list Z) (b : Z) :
  first_low (bs ++ [b]) = first_low bs + b * 2 ^ Z.of_nat (length bs).
Proof.
  induction bs as [|a bs IH].
  - simpl. lia.
  - cbn [app first_low length]. rewrite IH, Nat2Z.inj_succ, Z.pow_succ_r by lia.
    lia.
Qed.

Lemma first_low_bound (bs : list Z) :
  Forall is_level bs -> 0 <= first_low bs < 2 ^ Z.of_nat (length bs).
Proof.
  induction 1 as [|b bs Hb _ IH].
  - simpl. lia.
  - cbn [first_low length]. rewrite Nat2Z.inj_succ, Z.pow_succ_r by lia.
    destruct Hb; subst; lia.
Qed.

Lemma first_high_snoc (bs : list Z) (b : Z) :
  first_high (bs ++ [b]) = 2 * first_high bs + b.
Proof. unfold first_high. now rewrite fold_left_app. Qed.

(** Each branch of the code collects one more bit of the list. *)
Lemma folded_collected (l : bool) (bs : list Z) (b : Z) :
  Forall is_level bs -> is_level b ->
  folded l (collected l bs) b (Z.of_nat (length bs)) = collected l (bs ++ [b]).
Proof.
  intros Hbs Hb. unfold folded, collected. destruct l.
  - rewrite first_high_snoc. now apply lor_double_level.
  - rewrite first_low_snoc. apply lor_above; [lia| |exact Hb].
    now apply first_low_bound.
Qed.

Lemma words_from_app (a b : list put_call) :
  forall acc,
    words_from acc (a ++ b) =
    (fst (words_from acc a) ++ fst (words_from (snd (words_from acc a)) b),
     snd (words_from (snd (words_from acc a)) b)).
Proof.
  induction a as [|p a IH]; intro acc; simpl.
  - now destruct (words_from acc b).
  - destruct (is_word_ann p).
    + rewrite IH. now destruct (words_from [] a).
    + apply IH.
Qed.

Lemma bit_of_bit_ann (d : Decoder) (e : Z) :
  is_level (lastbit d) -> bit_of (bit_ann d e) = lastbit d.
Proof. unfold bit_of, bit_ann. simpl. intros [->| ->]; reflexivity. Qed.

Lemma shows_bit_bit_ann (d : Decoder) (e : Z) :
  is_level (lastbit d) -> shows_bit (bit_ann d e).
Proof.
  unfold shows_bit, bit_ann. simpl. intros [->| ->] _; [now left|now right].
Qed.

Lemma shows_bit_word_ann (s e v : Z) : shows_bit (word_ann s e v).
Proof. unfold shows_bit, word_ann, is_bit_ann. simpl. discriminate. Qed.

(** The trace after a bit annotation and maybe a word annotation. *)
Lemma words_put (out : list put_call) (d : Decoder) (e s e' v : Z) (flush : bool) :
  is_level (lastbit d) ->
  words_from [] (out ++ bit_ann d e :: (if flush then [word_ann s e' v] else []))
  = if flush
    then (words out ++ [(snd (words_from [] out) ++ [lastbit d], Text.fmt_X v)], [])
    else (words out, snd (words_from [] out) ++ [lastbit d]).
Proof.
  intro Hl. rewrite words_from_app. unfold words.
  destruct flush; cbn [words_from is_word_ann is_bit_ann bit_ann word_ann data fst snd];
    simpl; rewrite ?(bit_of_bit_ann d e Hl), ?app_nil_r; reflexivity.
Qed.

Lemma packed_shown (o : Options) (r : Run) : packed o r -> shown o (emitted r).
Proof. intros (_ & _ & _ & Hb & Hw & _). split; assumption. Qed.

Lemma pass_packed (o : Options) (w : wait_result) (r : Run) (x : outcome) :
  level_in w -> packed o r -> pass o w r x ->
  match x with
  | Continue r' => packed o r'
  | Raise _ r' => shown o (emitted r')
  end.
Proof.
  intros Hw Hk Hp.
  pose proof Hk as (Hn & Hl & Hpins & Hb & Hws & Hop & Hlen & Hnib).
  assert (Hlv : forall c d, pins (arrive w r) = Some (c, d) -> is_level d).
  { intros c d H. destruct w; simpl in *; [now inversion H; subst|eauto]. }
  assert (Dl : lastbit (dec (arrive w r)) = lastbit (dec r)) by now destruct w.
  assert (Hl' : is_level (lastbit (dec (arrive w r)))) by now rewrite Dl.
  set (op := snd (words_from [] (emitted r))) in *.
  assert (Hf : folded (lsbfirst o) (nibble (dec (arrive w r)))
                 (lastbit (dec (arrive w r))) (nibblecount (dec (arrive w r)))
               = collected (lsbfirst o) (op ++ [lastbit (dec r)])).
  { rewrite arrive_folded, Hnib, <- Hlen. now apply folded_collected. }
  assert (Hop' : Forall is_level (op ++ [lastbit (dec r)]))
    by (apply Forall_app; split; [exact Hop|constructor; [exact Hl|constructor]]).
  destruct Hp as [Hx Hpos|Hx Hz Hpin|c d Hpin Ha|c d Hpin Ha Hc|c d Hpin Ha Hc].
  - (* flush at exhaustion *)
    unfold flushed, shown. cbn [emitted]. rewrite arrive_emitted.
    split.
    + apply Forall_app; split; [exact Hb|].
      constructor; [now apply shows_bit_bit_ann|].
      constructor; [apply shows_bit_word_ann|constructor].
    + unfold words.
      rewrite (words_put (emitted r) (dec (arrive w r)) _ _ _ _ true Hl').
      cbn [fst]. apply Forall_app; split; [exact Hws|].
      constructor; [|constructor]. split; cbn [fst snd]; rewrite ?Hf, Dl; auto.
  - rewrite arrive_emitted. now apply packed_shown.
  - (* inactive edge *)
    destruct (inactive_edge_keeps (arrive w r)) as (He & Hv & Hc & Hlb & Hq).
    unfold packed. rewrite He, Hv, Hc, Hlb, Hq.
    rewrite arrive_emitted, arrive_nibble, arrive_nibblecount, Dl.
    conjs; auto.
  - (* first active edge *)
    unfold packed, first_bit. cbn [dec emitted pins nibble nibblecount lastbit].
    rewrite arrive_emitted, arrive_nibble, arrive_nibblecount.
    conjs; eauto.
  - (* active edge with a pending bit *)
    unfold packed, next_bit. cbn [dec emitted pins nibble nibblecount lastbit].
    rewrite Hf, arrive_emitted, arrive_nibblecount.
    set (flush := (nibblecount (dec r) + 1 >=? bits o)
                  || snd (measure_bit (dec (arrive w r)))).
    pose proof (words_put (emitted r) (dec (arrive w r))
                  (fst (fst (measure_bit (dec (arrive w r)))))
                  (if nibblestartsample (dec (arrive w r)) =? 0
                   then bitstartsample (dec (arrive w r))
                   else nibblestartsample (dec (arrive w r)))
                  (fst (fst (measure_bit (dec (arrive w r)))))
                  (collected (lsbfirst o) (op ++ [lastbit (dec r)]))
                  flush Hl') as Hput.
    rewrite Dl in Hput. fold op in Hput. unfold words. rewrite Hput.
    conjs; eauto.
    + destruct flush; lia.
    + apply Forall_app; split; [exact Hb|].
      constructor; [now apply shows_bit_bit_ann|].
      destruct flush; [|constructor].
      constructor; [apply shows_bit_word_ann|constructor].
    + destruct flush; cbn [fst]; [|exact Hws].
      apply Forall_app; split; [exact Hws|].
      constructor; [|constructor]. split; cbn [fst snd]; auto.
    + destruct flush; cbn [snd]; [constructor|exact Hop'].
    + destruct flush; cbn [snd length]; [lia|].
      rewrite length_app, Nat2Z.inj_add. simpl. lia.
    + destruct flush; cbn [snd]; [now destruct (lsbfirst o)|reflexivity].
Qed.

Lemma start_packed (o : Options) : packed o start.
Proof.
  unfold packed. simpl. conjs; try lia.
  - now left.
  - discriminate.
  - constructor.
  - constructor.
  - constructor.
  - now destruct (lsbfirst o).
Qed.

Lemma decode_shown (fuel : nat) (o : Options) (src : list edge) (eof : Z) :
  Forall (fun e => is_level (sda_pin e)) src ->
  shown o (emitted (run_of (decode fuel o src eof start))).
Proof.
  intro Hs.
  pose (E := fun e : edge => is_level (sda_pin e)).
  assert (Hm : forall e r0 r', E e -> packed o r0 ->
                 loop_body o (Matched (at_sample e) (clk_pin e) (sda_pin e)) r0
                 = Continue r' -> packed o r').
  { intros e r0 r' He Hk H.
    pose proof (pass_packed o (Matched (at_sample e) (clk_pin e) (sda_pin e))
                  r0 _ He Hk (loop_body_pass o _ r0 (proj1 Hk))) as Hp.
    now rewrite H in Hp. }
  assert (Hx : forall s r0 r', packed o r0 ->
                 loop_body o (Exhausted s) r0 = Continue r' -> packed o r').
  { intros s r0 r' Hk H.
    pose proof (pass_packed o (Exhausted s) r0 _ I Hk
                  (loop_body_pass o _ r0 (proj1 Hk))) as Hp.
    now rewrite H in Hp. }
  destruct (decode fuel o src eof start) as [r|e r] eqn:Hd; cbn [run_of].
  - apply packed_shown.
    exact (decode_continue_inv o eof E (packed o) Hm Hx fuel src start r
             Hs (start_packed o) Hd).
  - destruct (decode_raise_inv o eof E (packed o) Hm Hx fuel src start e r
                Hs (start_packed o) Hd) as (w & r0 & Hk & Hr).
    destruct w as [s c d|s].
    + pose proof (matched_continues o s c d r0 (proj1 Hk)) as (r1 & H1 & _).
      rewrite H1 in Hr. discriminate.
    + pose proof (pass_packed o (Exhausted s) r0 _ I Hk
                    (loop_body_pass o _ r0 (proj1 Hk))) as Hp.
      now rewrite Hr in Hp.
Qed.

(** X8: when every data level of the capture is 0 or 1, the text of every
    bit annotation put in any run is "0" or "1". *)
Theorem bit_annotations_show_levels
  (fuel : nat) (o : Options) (src : list edge) (eof : Z) :
  Forall (fun e => is_level (sda_pin e)) src ->
  Forall (fun p => is_bit_ann p = true ->
                   snd (data p) = "0"%string \/ snd (data p) = "1"%string)
         (emitted (run_of (decode fuel o src eof start))).
Proof. intro Hs. apply (decode_shown fuel o src eof Hs). Qed.

Lemma bit_annotations_show_levels_witness :
  Forall (fun p => is_bit_ann p = true ->
                   snd (data p) = "0"%string \/ snd (data p) = "1"%string)
         (emitted (run_of (decode 5 default_options
                             (equal_periods 10 10 [1; 0; 1]) 35 start))).
Proof.
  apply (bit_annotations_show_levels 5 default_options
           (equal_periods 10 10 [1; 0; 1]) 35).
  levels.
Defined.

(** X9: when every data level of the capture is 0 or 1, every word
    annotation put in any run shows, in hexadecimal, the number whose binary
    digits are the bits of the bit annotations put since the previous word
    annotation: the first of them is the highest digit under ['lsb first']
    and the lowest digit under ['msb first']. *)
Theorem word_annotations_show_their_bits
  (fuel : nat) (o : Options) (src : list edge) (eof : Z) :
  Forall (fun e => is_level (sda_pin e)) src ->
  Forall (fun w =>
            Forall is_level (fst w)
            /\ snd w = Text.fmt_X (match bitorder o with
                                   | lsb_first => first_high (fst w)
                                   | msb_first => first_low (fst w)
                                   end))
         (words (emitted (run_of (decode fuel o src eof start)))).
Proof.
  intro Hs. destruct (decode_shown fuel o src eof Hs) as [_ Hw].
  eapply Forall_impl; [|exact Hw].
  intros w [H1 H2]. split; [exact H1|].
  rewrite H2. unfold collected, lsbfirst. now destruct (bitorder o).
Qed.

Lemma word_annotations_show_their_bits_witness :
  Forall (fun w =>
            Forall is_level (fst w)
            /\ snd w = Text.fmt_X (first_low (fst w)))
         (words (emitted (run_of (decode 5 default_options
                                    (equal_periods 10 10 [1; 0; 1]) 35 start)))).
Proof.
  apply (word_annotations_show_their_bits 5 default_options
           (equal_periods 10 10 [1; 0; 1]) 35).
  levels.
Defined.

(** ** Inactive edges *)

Lemma set_samplenum_twice (s : Z) (d d' : Decoder) :
  set_samplenum 0 d = set_samplenum 0 d' -> set_samplenum s d = set_samplenum s d'.
Proof.
  intro H.
  change (set_samplenum s d) with (set_samplenum s (set_samplenum 0 d)).
  now rewrite H.
Qed.

Lemma inactive_edge_idle (r : Run) :
  lastsamplenum (dec r) <> 0 -> inactive_edge r = r.
Proof.
  intro H. unfold inactive_edge.
  destruct (Z.eqb_spec (lastsamplenum (dec r)) 0); [contradiction|reflexivity].
Qed.

Lemma active_edge_lastsamplenum (o : Options) (s clk sda : Z) (r r' : Run) :
  0 <= nibblecount (dec r) ->
  is_active (clock_edge o) clk = true ->
  loop_body o (Matched s clk sda) r = Continue r' ->
  lastsamplenum (dec r') = s.
Proof.
  intros Hn Ha H. rewrite (loop_body_active o s clk sda r Ha) in H.
  destruct (Z_gt_le_dec (bitlencount (dec r)) 0) as [Hc|Hc].
  - rewrite active_edge_pending in H by assumption. now inversion H.
  - rewrite active_edge_first in H by assumption. now inversion H.
Qed.

(** Once an active edge has been seen at a sample other than 0, taking the
    whole capture or only its active edges gives the same output and the
    same fields but [samplenum]. *)
Lemma decode_active_edges (o : Options) (eof : Z) (src : list edge) :
  forall r r',
    0 <= nibblecount (dec r) ->
    lastsamplenum (dec r) <> 0 ->
    emitted r = emitted r' ->
    set_samplenum 0 (dec r) = set_samplenum 0 (dec r') ->
    Forall (fun e => at_sample e <> 0) src ->
    exists x x',
      decode (length src) o src eof r = Continue x
      /\ decode (length (active_edges o src)) o (active_edges o src) eof r'
         = Continue x'
      /\ emitted x = emitted x'
      /\ set_samplenum 0 (dec x) = set_samplenum 0 (dec x').
Proof.
  induction src as [|e src IH]; intros r r' Hn Hl He Hd Hs.
  - exists r, r'. repeat split; auto.
  - inversion Hs as [|? ? Hs0 Hs']; subst.
    cbn [length decode wait tl active_edges filter].
    destruct (is_active (clock_edge o) (clk_pin e)) eqn:Ha.
    + (* an active edge: both runs take it from the same fields *)
      cbn [length decode wait tl].
      assert (Heq : loop_body o (Matched (at_sample e) (clk_pin e) (sda_pin e)) r'
                    = loop_body o (Matched (at_sample e) (clk_pin e) (sda_pin e)) r).
      { unfold loop_body. now rewrite He, (set_samplenum_twice _ _ _ Hd). }
      rewrite Heq.
      destruct (matched_continues o (at_sample e) (clk_pin e) (sda_pin e) r Hn)
        as (r1 & H1 & Hn1 & _).
      rewrite H1.
      apply (IH r1 r1); auto.
      rewrite (active_edge_lastsamplenum o _ _ _ r r1 Hn Ha H1). exact Hs0.
    + (* an inactive edge changes [samplenum] and the pins only *)
      assert (H1 : loop_body o (Matched (at_sample e) (clk_pin e) (sda_pin e)) r
                   = Continue (arrive (Matched (at_sample e) (clk_pin e) (sda_pin e)) r)).
      { unfold loop_body, on_edge. cbn [pins]. rewrite Ha.
        now rewrite inactive_edge_idle by exact Hl. }
      rewrite H1.
      apply (IH (arrive (Matched (at_sample e) (clk_pin e) (sda_pin e)) r) r');
        auto.
Qed.

(** X10: in a capture that starts with an active edge and has no edge at
    sample 0, the inactive edges do not matter: when all edges have been
    taken, the output and every field of the decoder but [samplenum] are what
    they are after taking the active edges alone. *)
Theorem inactive_edges_do_not_matter
  (o : Options) (e : edge) (src : list edge) (eof : Z) :
  is_active (clock_edge o) (clk_pin e) = true ->
  Forall (fun e => at_sample e <> 0) (e :: src) ->
  exists x x',
    decode (length (e :: src)) o (e :: src) eof start = Continue x
    /\ decode (length (active_edges o (e :: src))) o (active_edges o (e :: src))
         eof start = Continue x'
    /\ emitted x = emitted x'
    /\ set_samplenum 0 (dec x) = set_samplenum 0 (dec x').
Proof.
  intros Ha Hs. inversion Hs as [|? ? Hs0 Hs']; subst.
  cbn [length decode wait tl active_edges filter]. rewrite Ha.
  cbn [length decode wait tl].
  destruct (matched_continues o (at_sample e) (clk_pin e) (sda_pin e) start)
    as (r1 & H1 & Hn1 & _); [simpl; lia|].
  rewrite H1.
  apply (decode_active_edges o eof src r1 r1); auto.
  rewrite (active_edge_lastsamplenum o _ _ _ start r1 ltac:(simpl; lia) Ha H1).
  exact Hs0.
Qed.

Lemma inactive_edges_do_not_matter_witness :
  exists x x',
    decode 4 default_options
      [mk_edge 10 1 1; mk_edge 15 0 1; mk_edge 20 1 0; mk_edge 25 0 0] 30 start
    = Continue x
    /\ decode 2 default_options [mk_edge 10 1 1; mk_edge 20 1 0] 30 start
       = Continue x'
    /\ emitted x = emitted x'
    /\ set_samplenum 0 (dec x) = set_samplenum 0 (dec x').
Proof.
  apply (inactive_edges_do_not_matter default_options (mk_edge 10 1 1)
           [mk_edge 15 0 1; mk_edge 20 1 0; mk_edge 25 0 0] 30).
  - reflexivity.
  - repeat (apply Forall_cons; [simpl; discriminate|]). apply Forall_nil.
Defined.

(** ** Number of bit annotations *)

Lemma bit_anns_put (out : list put_call) (d : Decoder) (e s e' v : Z) (flush : bool) :
  bit_anns (out ++ bit_ann d e :: (if flush then [word_ann s e' v] else []))
  = bit_anns out ++ [bit_ann d e].
Proof.
  unfold bit_anns. rewrite filter_app. f_equal. now destruct flush.
Qed.

Lemma decode_bit_anns (o : Options) (eof : Z) (src : list edge) :
  forall r,
    0 <= nibblecount (dec r) -> 0 <= bitlencount (dec r) ->
    exists r',
      decode (length src) o src eof r = Continue r'
      /\ length (bit_anns (emitted r'))
         = (length (bit_anns (emitted r))
            + if bitlencount (dec r) >? 0 then length (active_edges o src)
              else Nat.pred (length (active_edges o src)))%nat.
Proof.
  induction src as [|e src IH]; intros r Hn Hc.
  - exists r. split; [reflexivity|]. simpl. destruct (_ >? _); lia.
  - assert (Hact : active_edges o (e :: src)
                   = if is_active (clock_edge o) (clk_pin e)
                     then e :: active_edges o src else active_edges o src)
      by reflexivity.
    rewrite Hact. clear Hact. cbn [length decode wait tl].
    destruct (is_active (clock_edge o) (clk_pin e)) eqn:Ha.
    + cbn [length]. rewrite (loop_body_active o _ _ _ r Ha).
      set (w := Matched (at_sample e) (clk_pin e) (sda_pin e)).
      destruct (Z_gt_le_dec (bitlencount (dec r)) 0) as [Hp|Hp].
      * rewrite active_edge_pending by assumption.
        destruct (IH (next_bit (bits o) (lsbfirst o) (sda_pin e) (arrive w r)))
          as (r' & H' & Hl').
        { unfold next_bit. cbn [dec nibblecount]. destruct (_ || _); simpl; lia. }
        { unfold next_bit. cbn [dec bitlencount]. simpl.
          destruct (negb _); lia. }
        exists r'. split; [exact H'|]. rewrite Hl'.
        unfold next_bit at 1 2. cbn [emitted dec bitlencount].
        rewrite bit_anns_put, length_app. cbn [length].
        change (emitted (arrive w r)) with (emitted r).
        change (bitlencount (dec (arrive w r))) with (bitlencount (dec r)).
        change (bitstartsample (dec (arrive w r))) with (bitstartsample (dec r)).
        destruct (Z.gtb_spec (bitlencount (dec r)) 0); [|lia].
        destruct (Z.gtb_spec
                    ((if negb (bitstartsample (dec r) =? 0)
                      then bitlencount (dec r) + 1 else bitlencount (dec r)) + 1) 0)
          as [G|G]; [lia|].
        destruct (negb _); lia.
      * rewrite active_edge_first by assumption.
        destruct (IH (first_bit (sda_pin e) (arrive w r))) as (r' & H' & Hl').
        { exact Hn. }
        { unfold first_bit. simpl. lia. }
        exists r'. split; [exact H'|]. rewrite Hl'.
        unfold first_bit at 1 2. cbn [emitted dec bitlencount].
        change (emitted (arrive w r)) with (emitted r).
        change (bitlencount (dec (arrive w r))) with (bitlencount (dec r)).
        destruct (Z.gtb_spec (bitlencount (dec r)) 0); [lia|].
        destruct (Z.gtb_spec (bitlencount (dec r) + 1) 0); simpl; lia.
    + set (w := Matched (at_sample e) (clk_pin e) (sda_pin e)).
      assert (H1 : loop_body o w r = Continue (inactive_edge (arrive w r))).
      { unfold loop_body, on_edge. cbn [pins w]. now rewrite Ha. }
      rewrite H1.
      destruct (inactive_edge_keeps (arrive w r)) as (He & _ & Hk & _).
      assert (Hc' : bitlencount (dec (inactive_edge (arrive w r)))
                    = bitlencount (dec r)).
      { unfold inactive_edge. now destruct (_ =? _). }
      destruct (IH (inactive_edge (arrive w r))) as (r' & H' & Hl').
      { rewrite Hk. exact Hn. }
      { rewrite Hc'. exact Hc. }
      exists r'. split; [exact H'|]. rewrite Hl', He, Hc'. reflexivity.
Qed.

(** X11: when every edge of a capture has been taken, the bit annotations
    put are one fewer than the active edges (none for a capture without an
    active edge): each sampled bit is annotated when the next active edge
    arrives. *)
Theorem one_bit_annotation_per_period
  (o : Options) (src : list edge) (eof : Z) :
  length (bit_anns (emitted (run_of (decode (length src) o src eof start))))
  = Nat.pred (length (active_edges o src)).
Proof.
  destruct (decode_bit_anns o eof src start) as (r & Hd & Hl);
    [simpl; lia|simpl; lia|].
  rewrite Hd. exact Hl.
Qed.

(** ** Invariants up to the end of a run *)

Section RunEnds.

Variable o : Options.
Variable eof : Z.
Variable E : edge -> Prop.
(** Kept at the head of the loop, and what it leaves in a run that ended. *)
Variable Pc : Run -> Prop.
Variable Pf : Run -> Prop.

Hypothesis Pc_legal : forall r, Pc r -> 0 <= nibblecount (dec r).
Hypothesis Pc_final : forall r, Pc r -> Pf r.
Hypothesis Pc_matched :
  forall e r x,
    E e -> Pc r ->
    pass o (Matched (at_sample e) (clk_pin e) (sda_pin e)) r x ->
    match x with Continue r' => Pc r' | Raise _ r' => Pf r' end.
Hypothesis Pc_exhausted :
  forall r x,
    Pc r -> pass o (Exhausted eof) r x ->
    match x with Continue r' => Pc r' | Raise _ r' => Pf r' end.

Lemma decode_ends (fuel : nat) :
  forall src r, Forall E src -> Pc r -> Pf (run_of (decode fuel o src eof r)).
Proof.
  induction fuel as [|fuel IH]; intros src r Hs HP.
  - simpl. now apply Pc_final.
  - cbn [decode].
    assert (Hp : match loop_body o (wait src eof) r with
                 | Continue r' => Pc r'
                 | Raise _ r' => Pf r'
                 end).
    { pose proof (loop_body_pass o (wait src eof) r (Pc_legal r HP)) as Hq.
      destruct src as [|e src]; cbn [wait] in *.
      - apply (Pc_exhausted r); assumption.
      - inversion Hs; subst. apply (Pc_matched e r); assumption. }
    destruct (loop_body o (wait src eof) r) as [r1|e r1]; [|exact Hp].
    apply IH; [|exact Hp]. destruct src; simpl; auto. now inversion Hs.
Qed.

End RunEnds.

(** ** Start of the first word *)

Lemma decode_prefix (o : Options) (eof : Z) (l1 l2 : list edge) :
  forall r,
    decode (length l1) o (l1 ++ l2) eof r = decode (length l1) o l1 eof r.
Proof.
  induction l1 as [|e l1 IH]; intro r; [reflexivity|].
  cbn [length app decode wait tl].
  destruct (loop_body o (Matched (at_sample e) (clk_pin e) (sda_pin e)) r);
    [apply IH|reflexivity].
Qed.

(** Inactive edges before any active edge move the start of the bit and of
    the word and nothing else. *)
Lemma decode_idle_prefix (o : Options) (eof : Z) (pre : list edge) :
  forall r,
    Forall (fun e => is_active (clock_edge o) (clk_pin e) = false) pre ->
    lastsamplenum (dec r) = 0 ->
    exists r',
      decode (length pre) o pre eof r = Continue r'
      /\ emitted r' = emitted r
      /\ lastsamplenum (dec r') = 0
      /\ bitlencount (dec r') = bitlencount (dec r)
      /\ nibblecount (dec r') = nibblecount (dec r)
      /\ (pre <> [] ->
          nibblestartsample (dec r') = at_sample (last pre (mk_edge 0 0 0))
          /\ bitstartsample (dec r') = at_sample (last pre (mk_edge 0 0 0))).
Proof.
  induction pre as [|e pre IH]; intros r Hs Hl.
  - exists r. repeat split; auto; congruence.
  - inversion Hs as [|? ? Ha Hs']; subst.
    cbn [length decode wait tl].
    set (w := Matched (at_sample e) (clk_pin e) (sda_pin e)).
    assert (H1 : loop_body o w r = Continue (inactive_edge (arrive w r))).
    { unfold loop_body, on_edge. cbn [pins w]. now rewrite Ha. }
    rewrite H1.
    assert (Hi : inactive_edge (arrive w r)
                 = {| dec := {| samplenum := at_sample e;
                                lastsamplenum := lastsamplenum (dec r);
                                bitstartsample := at_sample e;
                                lastbit := lastbit (dec r);
                                bitlencount := bitlencount (dec r);
                                bitlensum := bitlensum (dec r);
                                nibblecount := nibblecount (dec r);
                                nibble := nibble (dec r);
                                nibblestartsample := at_sample e |};
                      pins := Some (clk_pin e, sda_pin e);
                      emitted := emitted r |}).
    { unfold inactive_edge. cbn [dec arrive w set_samplenum lastsamplenum].
      rewrite Hl. reflexivity. }
    rewrite Hi. clear Hi.
    match goal with |- context [decode _ _ _ _ ?x] => set (r1 := x) end.
    destruct (IH r1 Hs' Hl) as (r' & H' & He & Hl' & Hc & Hk & Hlast).
    exists r'. split; [exact H'|]. repeat split; auto.
    + destruct pre as [|e' pre'].
      * simpl in H'. inversion H'; subst r'. reflexivity.
      * destruct Hlast as [Hn _]; [discriminate|]. exact Hn.
    + destruct pre as [|e' pre'].
      * simpl in H'. inversion H'; subst r'. reflexivity.
      * destruct Hlast as [_ Hb]; [discriminate|]. exact Hb.
Qed.

Lemma find_app_word (a b : list put_call) :
  find is_word_ann (a ++ b)
  = match find is_word_ann a with
    | Some w => Some w
    | None => find is_word_ann b
    end.
Proof.
  induction a as [|p a IH]; [reflexivity|].
  simpl. now destruct (is_word_ann p).
Qed.

Lemma find_put (out : list put_call) (d : Decoder) (e s e' v : Z) (flush : bool) :
  find is_word_ann
       (out ++ bit_ann d e :: (if flush then [word_ann s e' v] else []))
  = match find is_word_ann out with
    | Some w => Some w
    | None => if flush then Some (word_ann s e' v) else None
    end.
Proof.
  rewrite find_app_word. destruct (find is_word_ann out); [reflexivity|].
  now destruct flush.
Qed.

Lemma pass_first_word_at (o : Options) (p : Z) (w : wait_result) (r : Run)
      (x : outcome) :
  p <> 0 -> sample_of w <> 0 -> first_word_at p r -> pass o w r x ->
  match x with
  | Continue r' => first_word_at p r'
  | Raise _ r' => forall wd, find is_word_ann (emitted r') = Some wd -> ss wd = p
  end.
Proof.
  intros Hp0 Hs (Hn & Hl & Hf) Hp.
  assert (Dn : nibblestartsample (dec (arrive w r)) = nibblestartsample (dec r))
    by now destruct w.
  assert (Dl : lastsamplenum (dec (arrive w r)) = lastsamplenum (dec r))
    by now destruct w.
  assert (Ds : samplenum (dec (arrive w r)) = sample_of w) by now destruct w.
  destruct Hp as [Hx Hpos|Hx Hz Hpin|c d Hpin Ha|c d Hpin Ha Hc|c d Hpin Ha Hc].
  - unfold flushed. cbn [emitted]. rewrite arrive_emitted.
    intros wd.
    rewrite (find_put (emitted r) _ _ _ _ _ true).
    destruct (find is_word_ann (emitted r)) as [w0|].
    + intro H. injection H as <-. exact Hf.
    + intro H. injection H as <-. cbn [word_ann ss]. now rewrite Dn.
  - rewrite arrive_emitted. intros wd H. now rewrite H in Hf.
  - rewrite inactive_edge_idle by now rewrite Dl.
    unfold first_word_at.
    rewrite arrive_emitted, arrive_nibblecount, Dl, Dn. auto.
  - unfold first_word_at, first_bit.
    cbn [dec emitted nibblecount lastsamplenum nibblestartsample].
    rewrite arrive_emitted, arrive_nibblecount, Dn, Ds. auto.
  - unfold first_word_at, next_bit.
    cbn [dec emitted nibblecount lastsamplenum nibblestartsample].
    rewrite arrive_emitted, arrive_nibblecount, Dn, Ds.
    set (flush := (nibblecount (dec r) + 1 >=? bits o)
                  || snd (measure_bit (dec (arrive w r)))).
    rewrite find_put.
    split; [destruct flush; lia|]. split; [exact Hs|].
    destruct (find is_word_ann (emitted r)) as [w0|]; [exact Hf|].
    destruct (Z.eqb_spec (nibblestartsample (dec r)) 0) as [E0|E0]; [lia|].
    now destruct flush.
Qed.

(** X12: when a capture begins with inactive edges, the last of them at a
    sample [p] other than 0, and goes on with an active edge (no later edge
    and no exhaustion being at sample 0), the first word annotation of the
    run starts at [p], the sample of that inactive edge, and not at the start
    of its first bit. *)
Theorem first_word_starts_at_idle_edge
  (o : Options) (pre : list edge) (i a : edge) (rest : list edge) (eof : Z)
  (fuel : nat) (wd : put_call) :
  Forall (fun e => is_active (clock_edge o) (clk_pin e) = false) (pre ++ [i]) ->
  is_active (clock_edge o) (clk_pin a) = true ->
  at_sample i <> 0 ->
  Forall (fun e => at_sample e <> 0) (a :: rest) ->
  eof <> 0 ->
  find is_word_ann
       (emitted (run_of (decode (length (pre ++ [i]) + fuel) o
                           ((pre ++ [i]) ++ a :: rest) eof start)))
  = Some wd ->
  ss wd = at_sample i.
Proof.
  intros Hpre Ha Hi Hs He Hfind.
  destruct (decode_idle_prefix o eof (pre ++ [i]) start Hpre eq_refl)
    as (r0 & H0 & Hem & Hl0 & Hc0 & Hk0 & Hlast).
  destruct Hlast as [Hn0 _]; [destruct pre; discriminate|].
  rewrite last_last in Hn0.
  assert (Hd : decode (length (pre ++ [i])) o ((pre ++ [i]) ++ a :: rest) eof start
               = Continue r0) by now rewrite decode_prefix.
  rewrite (decode_split _ _ _ _ _ _ Hd) in Hfind.
  rewrite skipn_app, skipn_all, Nat.sub_diag in Hfind. cbn [app skipn] in Hfind.
  destruct fuel as [|fuel].
  { simpl in Hfind. rewrite Hem in Hfind. discriminate. }
  cbn [decode wait tl] in Hfind.
  rewrite (loop_body_active o _ _ _ r0 Ha) in Hfind.
  rewrite active_edge_first in Hfind by (simpl; rewrite Hc0; simpl; lia).
  inversion Hs as [|? ? Hsa Hsr]; subst.
  set (r1 := first_bit (sda_pin a)
               (arrive (Matched (at_sample a) (clk_pin a) (sda_pin a)) r0)) in *.
  assert (H1 : first_word_at (at_sample i) r1).
  { unfold first_word_at, r1, first_bit.
    cbn [dec emitted nibblecount lastsamplenum nibblestartsample arrive
           set_samplenum samplenum].
    rewrite Hem, Hk0. cbn [emitted start find nibblecount dec reset].
    split; [lia|]. split; [exact Hsa|exact Hn0]. }
  set (Pf := fun r : Run =>
               forall wd, find is_word_ann (emitted r) = Some wd ->
                          ss wd = at_sample i).
  assert (A : forall r, first_word_at (at_sample i) r -> 0 <= nibblecount (dec r))
    by (intros r (Hn & _); exact Hn).
  assert (B : forall r, first_word_at (at_sample i) r -> Pf r)
    by (intros r (_ & _ & Hf) w0 H; now rewrite H in Hf).
  assert (C : forall e r x,
             at_sample e <> 0 -> first_word_at (at_sample i) r ->
             pass o (Matched (at_sample e) (clk_pin e) (sda_pin e)) r x ->
             match x with
             | Continue r' => first_word_at (at_sample i) r'
             | Raise _ r' => Pf r'
             end).
  { intros e r x Hne HP Hp.
    exact (pass_first_word_at o (at_sample i)
             (Matched (at_sample e) (clk_pin e) (sda_pin e)) r x Hi Hne HP Hp). }
  assert (D : forall r x,
             first_word_at (at_sample i) r -> pass o (Exhausted eof) r x ->
             match x with
             | Continue r' => first_word_at (at_sample i) r'
             | Raise _ r' => Pf r'
             end).
  { intros r x HP Hp.
    exact (pass_first_word_at o (at_sample i) (Exhausted eof) r x Hi He HP Hp). }
  exact (decode_ends o eof (fun e => at_sample e <> 0)
           (first_word_at (at_sample i)) Pf A B C D fuel rest r1 Hsr H1 wd Hfind).
Qed.

Lemma first_word_starts_at_idle_edge_witness :
  ss {| ss := 5; es := 30; output_id := OUTPUT_ANN; data := (1, "1"%string) |}
  = at_sample (mk_edge 5 0 0).
Proof.
  apply (first_word_starts_at_idle_edge
           {| clock_edge := rising; bits := 2; bitorder := msb_first |}
           [] (mk_edge 5 0 0) (mk_edge 10 1 1)
           [mk_edge 20 1 0; mk_edge 30 1 1] 40 4
           {| ss := 5; es := 30; output_id := OUTPUT_ANN; data := (1, "1"%string) |}).
  - repeat constructor.
  - reflexivity.
  - discriminate.
  - repeat (apply Forall_cons; [simpl; discriminate|]). apply Forall_nil.
  - discriminate.
  - vm_compute. reflexivity.
Defined.

(** ** A steady clock *)

Lemma steady_step (o : Options) (L k s b : Z) (r : Run) :
  clock_edge o = rising -> 1 <= L -> 1 <= bits o ->
  1 <= k -> 0 < s -> steady L (bits o) k s r ->
  exists r',
    loop_body o (Matched (s + L) 1 b) r = Continue r'
    /\ steady L (bits o) (k + 1) (s + L) r'.
Proof.
  intros Hr HL Hw Hk Hs (He & Hlt & Hpos & Hnss & Hf).
  pose proof He as (Hn & Hc & Hsum & Hb).
  rewrite loop_body_active by (unfold is_active; now rewrite Hr).
  rewrite active_edge_pending by (simpl; lia).
  eexists; split; [reflexivity|].
  set (r0 := arrive (Matched (s + L) 1 b) r).
  assert (Ht : snd (measure_bit (dec r0)) = false).
  { apply (equal_period_not_truncated L HL k s); [exact Hk|exact Hc|exact Hsum|].
    change (s + L - bitstartsample (dec r) = L). lia. }
  destruct (measure_bit_end (dec r0)) as [Hend Hlen]. rewrite Ht in Hend, Hlen.
  change (samplenum (dec r0)) with (s + L) in Hend, Hlen.
  change (bitstartsample (dec r0)) with (bitstartsample (dec r)) in Hlen.
  unfold steady, estimating, next_bit. fold r0.
  cbn [dec emitted nibblecount bitlencount bitlensum bitstartsample
         nibblestartsample].
  rewrite Hlen, Hend, Ht, orb_false_r.
  change (bitstartsample (dec r0)) with (bitstartsample (dec r)).
  change (bitlencount (dec r0)) with (bitlencount (dec r)).
  change (bitlensum (dec r0)) with (bitlensum (dec r)).
  change (nibblecount (dec r0)) with (nibblecount (dec r)).
  change (nibblestartsample (dec r0)) with (nibblestartsample (dec r)).
  change (samplenum (dec r0)) with (s + L).
  change (emitted r0) with (emitted r).
  destruct (Z.eqb_spec (bitstartsample (dec r)) 0) as [E|E]; [lia|].
  cbn [negb].
  assert (Hstart : (if nibblestartsample (dec r) =? 0
                    then bitstartsample (dec r) else nibblestartsample (dec r))
                   = s - nibblecount (dec r) * L).
  { rewrite Hnss, Hb.
    destruct (Z.eqb_spec (nibblecount (dec r)) 0) as [E0|E0].
    - simpl. rewrite E0. lia.
    - destruct (Z.eqb_spec (s - nibblecount (dec r) * L) 0); [lia|reflexivity]. }
  rewrite Hstart.
  destruct (Z.geb_spec (nibblecount (dec r) + 1) (bits o)) as [G|G].
  - (* the word is full *)
    conjs; try lia; try reflexivity.
    apply Forall_app; split; [exact Hf|].
    constructor; [|constructor; [|constructor]].
    + split; [intros _; cbn [bit_ann es ss];
               change (bitstartsample (dec r0)) with (bitstartsample (dec r)); lia
              |discriminate].
    + split; [discriminate|]. intros _. cbn [word_ann es ss].
      replace (bits o) with (nibblecount (dec r) + 1) by lia. lia.
  - conjs; try lia.
    + destruct (Z.eqb_spec (nibblecount (dec r) + 1) 0); [lia|]. lia.
    + apply Forall_app; split; [exact Hf|].
      constructor; [|constructor].
      split; [intros _; cbn [bit_ann es ss];
               change (bitstartsample (dec r0)) with (bitstartsample (dec r)); lia
              |discriminate].
Qed.

Lemma steady_run (o : Options) (eof L : Z) (sdas : list Z) :
  clock_edge o = rising -> 1 <= L -> 1 <= bits o ->
  forall k s r,
    1 <= k -> 0 < s -> steady L (bits o) k s r ->
    exists r',
      decode (length sdas) o (equal_periods (s + L) L sdas) eof r = Continue r'
      /\ steady L (bits o) (k + Z.of_nat (length sdas))
                (s + Z.of_nat (length sdas) * L) r'.
Proof.
  intros Hr HL Hw. induction sdas as [|b sdas IH]; intros k s r Hk Hs Hst.
  - exists r. split; [reflexivity|].
    simpl. now replace (k + 0) with k by lia; replace (s + 0) with s by lia.
  - destruct (steady_step o L k s b r Hr HL Hw Hk Hs Hst) as (r1 & H1 & Hst1).
    destruct (IH (k + 1) (s + L) r1) as (r' & H' & Hst'); [lia|lia|exact Hst1|].
    exists r'. split.
    + cbn [length decode equal_periods wait mk_edge at_sample clk_pin sda_pin tl].
      now rewrite H1.
    + change (length (b :: sdas)) with (S (length sdas)).
      rewrite Nat2Z.inj_succ.
      replace (k + Z.succ (Z.of_nat (length sdas)))
        with (k + 1 + Z.of_nat (length sdas)) by lia.
      replace (s + Z.succ (Z.of_nat (length sdas)) * L)
        with (s + L + Z.of_nat (length sdas) * L) by lia.
      exact Hst'.
Qed.

(** X13: on a clock whose rising edges are [L >= 1] samples apart, the
    first at a sample after 0, no bit is ever truncated: when the edges have
    been taken, every bit annotation put is exactly [L] samples wide and
    every word annotation exactly [bits * L] samples wide. *)
Theorem steady_clock_spans
  (o : Options) (s L eof : Z) (sdas : list Z) :
  clock_edge o = rising -> 0 < s -> 1 <= L -> 1 <= bits o ->
  Forall (fun p =>
            (is_bit_ann p = true -> es p = ss p + L)
            /\ (is_word_ann p = true -> es p = ss p + bits o * L))
         (emitted (run_of (decode (length sdas) o (equal_periods s L sdas)
                              eof start))).
Proof.
  intros Hr Hs HL Hw. destruct sdas as [|b sdas]; [constructor|].
  set (r1 := first_bit b (arrive (Matched s 1 b) start)).
  assert (H1 : loop_body o (Matched s 1 b) start = Continue r1).
  { rewrite loop_body_active by (unfold is_active; now rewrite Hr).
    now rewrite active_edge_first by (simpl; lia). }
  destruct (steady_run o eof L sdas Hr HL Hw 1 s r1) as (r & Hd & Hst);
    [lia|exact Hs| |].
  { unfold steady, estimating. simpl. conjs; try lia. constructor. }
  cbn [length decode equal_periods wait mk_edge at_sample clk_pin sda_pin tl].
  rewrite H1, Hd. apply Hst.
Qed.

Lemma steady_clock_spans_witness :
  Forall (fun p =>
            (is_bit_ann p = true -> es p = ss p + 10)
            /\ (is_word_ann p = true -> es p = ss p + 8 * 10))
         (emitted (run_of (decode 9 default_options
                             (equal_periods 10 10 [1; 0; 1; 0; 0; 1; 1; 0; 1])
                             0 start))).
Proof.
  apply (steady_clock_spans default_options 10 10 0
           [1; 0; 1; 0; 0; 1; 1; 0; 1]).
  - reflexivity.
  - reflexivity.
  - discriminate.
  - discriminate.
Defined.

(** ** The average and the double quotient *)

Lemma round_half_even_scale (num den c : Z) :
  0 < c -> 0 < den ->
  Double.round_half_even (num * c) (den * c) = Double.round_half_even num den.
Proof.
  intros Hc Hd. unfold Double.round_half_even.
  rewrite Z.div_mul_cancel_r, Z.mul_mod_distr_r by lia.
  destruct (Z.ltb_spec (2 * (num mod den * c)) (den * c));
    destruct (Z.ltb_spec (2 * (num mod den)) den); try nia; try reflexivity.
  destruct (Z.ltb_spec (den * c) (2 * (num mod den * c)));
    destruct (Z.ltb_spec den (2 * (num mod den))); try nia; reflexivity.
Qed.

Lemma round_half_even_exact (num den : Z) :
  0 < den -> num mod den = 0 -> Double.round_half_even num den = num / den.
Proof.
  intros Hd Hm. unfold Double.round_half_even. rewrite Hm.
  destruct (Z.ltb_spec (2 * 0) den); [reflexivity|lia].
Qed.

Lemma round_half_even_between (num den : Z) :
  0 < den ->
  num / den <= Double.round_half_even num den <= num / den + 1.
Proof.
  intro Hd. unfold Double.round_half_even.
  destruct (_ <? _); [lia|]. destruct (_ <? _); [lia|].
  destruct (Z.even _); lia.
Qed.

Lemma round_half_even_up (num den : Z) :
  0 < den -> den < 2 * (num mod den) ->
  Double.round_half_even num den = num / den + 1.
Proof.
  intros Hd Hm. unfold Double.round_half_even.
  destruct (Z.ltb_spec (2 * (num mod den)) den); [lia|].
  destruct (Z.ltb_spec den (2 * (num mod den))); [reflexivity|lia].
Qed.

(** The nearest multiple of [1 / S] to [a / b] has the ceiling of [a / b]
    once [b < 2 * S]. *)
Lemma ceil_of_rounded (a b S : Z) :
  0 <= a -> 0 < b -> 0 < S -> b < 2 * S ->
  - ((- Double.round_half_even (a * S) b) / S) = ceil_div a b.
Proof.
  intros Ha Hb HS Hlt. unfold ceil_div.
  pose proof (Z.div_mod a b ltac:(lia)) as Hdm.
  pose proof (Z.mod_pos_bound a b Hb) as Hr.
  set (k := a / b) in *. set (r := a mod b) in *.
  pose proof (Z.div_mod (a * S) b ltac:(lia)) as Hdm'.
  pose proof (Z.mod_pos_bound (a * S) b Hb) as Hr'.
  destruct (Z.eq_dec r 0) as [E|E].
  - (* the quotient is an integer *)
    assert (HaS : a * S = k * S * b) by nia.
    rewrite round_half_even_exact by (try lia; rewrite HaS; apply Z.mod_mul; lia).
    rewrite HaS, Z.div_mul by lia.
    replace (- (k * S)) with (- k * S) by lia. rewrite Z.div_mul by lia.
    replace (- a) with (- k * b) by nia. rewrite Z.div_mul by lia. lia.
  - (* the quotient lies strictly between [k] and [k + 1] *)
    assert (Hexact : (- a) / b = - (k + 1)).
    { symmetry. apply (Z.div_unique (- a) b (- (k + 1)) (b - r)); lia. }
    rewrite Hexact.
    set (m := Double.round_half_even (a * S) b).
    assert (Hm : k * S < m <= (k + 1) * S).
    { pose proof (round_half_even_between (a * S) b Hb) as Hbt. fold m in Hbt.
      set (f := a * S / b) in *. set (rr := (a * S) mod b) in *.
      assert (Hf1 : k * S <= f) by (apply Z.div_le_lower_bound; nia).
      assert (Hf2 : f < (k + 1) * S) by (apply Z.div_lt_upper_bound; nia).
      split; [|lia].
      destruct (Z.eq_dec f (k * S)) as [Ef|Ef]; [|lia].
      assert (Hrr : rr = r * S) by nia.
      unfold m. rewrite round_half_even_up; fold f; fold rr; nia. }
    assert (Hd : (- m) / S = - (k + 1)).
    { symmetry. apply (Z.div_unique (- m) S (- (k + 1)) ((k + 1) * S - m)); lia. }
    rewrite Hd. lia.
Qed.

Lemma ceil_true_divide_exact (a b : Z) :
  0 <= a < 2 ^ 53 -> 0 < b < 2 ^ 1022 ->
  Double.ceil_true_divide a b = Some (ceil_div a b).
Proof.
  intros Ha Hb.
  unfold Double.ceil_true_divide, Double.true_divide, Double.quotient.
  destruct (Z.eqb_spec b 0) as [|Hb0]; [lia|].
  rewrite (Z.abs_eq a), (Z.abs_eq b) by lia.
  destruct (Z.eq_dec a 0) as [->|Ha0].
  { (* zero *)
    rewrite Z.mul_0_l, (Z.div_0_l b) by lia.
    change (Z.max (Z.log2 0 - 52) 0) with 0. change (2 ^ 0) with 1.
    rewrite !Z.mul_1_r.
    assert (Hr : Double.round_half_even 0 b = 0)
      by (rewrite round_half_even_exact, Z.div_0_l by (try apply Z.mod_0_l; lia); reflexivity).
    rewrite Hr. change (2 ^ 2098 <=? 0) with false. cbn iota.
    change (Z.sgn 0) with 0. rewrite Z.mul_0_l. cbn [Z.mul option_map].
    unfold ceil_div. change (- 0) with 0. now rewrite Z.div_0_l by lia. }
  set (n := a * 2 ^ 1074).
  assert (H1074 : 2 ^ 1074 = 2 ^ 52 * 2 ^ 1022) by (rewrite <- Z.pow_add_r; reflexivity || lia).
  assert (H1127 : 2 ^ 1127 = 2 ^ 53 * 2 ^ 1074) by (rewrite <- Z.pow_add_r; reflexivity || lia).
  assert (P52 : 0 < 2 ^ 52) by (apply Z.pow_pos_nonneg; lia).
  assert (P53 : 2 ^ 53 = 2 * 2 ^ 52) by reflexivity.
  assert (P1022 : 0 < 2 ^ 1022) by (apply Z.pow_pos_nonneg; lia).
  assert (HQ : 2 ^ 52 <= n / b) by (apply Z.div_le_lower_bound; unfold n; nia).
  assert (HQ2 : n / b < 2 ^ 1127).
  { apply Z.div_lt_upper_bound; [lia|]. unfold n. nia. }
  pose proof (Z.log2_spec (n / b) ltac:(lia)) as [Hlo Hhi].
  assert (Hl52 : 52 <= Z.log2 (n / b)) by (apply Z.log2_le_pow2; lia).
  assert (Hl1127 : Z.log2 (n / b) < 1127) by (apply Z.log2_lt_pow2; lia).
  rewrite Z.max_l by lia.
  set (e := Z.log2 (n / b) - 52) in *.
  set (s := 1074 - e).
  assert (HP : 0 < 2 ^ e) by (apply Z.pow_pos_nonneg; lia).
  assert (HS : 0 < 2 ^ s) by (apply Z.pow_pos_nonneg; unfold s; lia).
  assert (HSP : 2 ^ 1074 = 2 ^ s * 2 ^ e)
    by (rewrite <- Z.pow_add_r by (unfold s; lia); f_equal; unfold s; lia).
  assert (Hle : 2 ^ Z.log2 (n / b) = 2 ^ 52 * 2 ^ e)
    by (rewrite <- Z.pow_add_r by lia; f_equal; unfold e; lia).
  assert (Hn : n = a * 2 ^ s * 2 ^ e) by (unfold n; rewrite HSP; lia).
  assert (Hkey : 2 ^ 52 * b <= a * 2 ^ s).
  { pose proof (Z.mul_div_le n b ltac:(lia)) as Hmd.
    assert (2 ^ 52 * 2 ^ e * b <= a * 2 ^ s * 2 ^ e) by nia.
    nia. }
  assert (HbS : b < 2 * 2 ^ s) by nia.
  rewrite Hn, round_half_even_scale by lia.
  set (m := Double.round_half_even (a * 2 ^ s) b).
  pose proof (round_half_even_between (a * 2 ^ s) b ltac:(lia)) as Hm. fold m in Hm.
  assert (Hm0 : 0 <= a * 2 ^ s / b) by (apply Z.div_pos; nia).
  assert (Hm1 : a * 2 ^ s / b <= a * 2 ^ s) by (apply Z.div_le_upper_bound; nia).
  assert (Hov : m * 2 ^ e < 2 ^ 2098).
  { assert (m * 2 ^ e <= n + 2 ^ e) by nia.
    assert (2 ^ e <= 2 ^ 1074) by (apply Z.pow_le_mono_r; lia).
    assert (n < 2 ^ 1127) by (unfold n; nia).
    assert (2 ^ 1127 + 2 ^ 1074 < 2 ^ 2098) by reflexivity. lia. }
  destruct (Z.leb_spec (2 ^ 2098) (m * 2 ^ e)); [lia|].
  rewrite (Z.sgn_pos a), (Z.sgn_pos b) by lia.
  cbn [option_map]. unfold Double.ceil. f_equal.
  replace (1 * 1 * m) with m by lia.
  rewrite HSP.
  replace (- (m * 2 ^ e)) with (- m * 2 ^ e) by lia.
  rewrite Z.div_mul_cancel_r by lia.
  apply ceil_of_rounded; lia.
Qed.

(** Beyond the bound the double quotient can miss the ceiling: a sum of
    [3 * 2 ^ 53 + 1] over a count of 3. *)
Lemma double_quotient_beyond_bound :
  Double.ceil_true_divide (3 * 2 ^ 53 + 1) 3 = Some (2 ^ 53)
  /\ ceil_div (3 * 2 ^ 53 + 1) 3 = 2 ^ 53 + 1.
Proof. split; vm_compute; reflexivity. Qed.

(** X14: while the period sum is below [2 ^ 53] (and the count below
    [2 ^ 1022]), the average the decoder takes on a double quotient,
    [0 if bitlencount == 0 else ceil(bitlensum / bitlencount)], raises
    nothing and is the exact ceiling of the quotient. *)
Theorem average_is_ceil_of_double_quotient (d : Decoder) :
  0 <= bitlensum d < 2 ^ 53 ->
  0 <= bitlencount d < 2 ^ 1022 ->
  (if bitlencount d =? 0 then Some 0
   else Double.ceil_true_divide (bitlensum d) (bitlencount d))
  = Some (average d).
Proof.
  intros Hs Hc. unfold average.
  destruct (Z.eqb_spec (bitlencount d) 0); [reflexivity|].
  apply ceil_true_divide_exact; lia.
Qed.

Lemma average_is_ceil_of_double_quotient_witness :
  Double.ceil_true_divide 20 5 = Some (average (dec after_three)).
Proof.
  apply (average_is_ceil_of_double_quotient (dec after_three)).
  - split; [discriminate|reflexivity].
  - split; [discriminate|reflexivity].
Defined.
